(** * PolyTracker: the execution-trace core (polytracker/tracing.h)

    A shallow embedding of [namespace polytracker] as declared in
    [src/polytracker/include/polytracker/tracing.h]:

    - [BasicBlockTrace] with its [operator==], [operator<] and hasher;
    - the [TraceEvent] hierarchy, living in a heap of objects addressed by
      pointers, with the [previous] back links;
    - [TraceEventStack] ([push], [pop], [peek], [empty], [operator bool]);
    - [Trace] (the per-thread stacks and the two last-usage maps).

    Pointers are machine addresses ([N], with [0] the null pointer); objects
    the code reaches through a pointer live in an explicit store, so that the
    aliasing the C++ code relies on is visible in the model. *)

From Stdlib Require Import ZArith NArith Ascii String List Lia.
From stdpp Require Import base option list gmap fin_maps fin_sets.

Local Open Scope N_scope.

(** ** Machine-level conventions *)

(** A pointer is an address; [nullptr] is address zero. *)
Definition ptr : Type := N.
Definition nullptr : ptr := 0.

(** [size_t] and [uint64_t] are 64 bits wide. *)
Definition SIZE_BITS : N := 64.
Definition SIZE_MOD : N := 2 ^ SIZE_BITS.

(** [x << k] on a [size_t]: the bits shifted past the top are lost. *)
Definition size_shl (x k : N) : N := (N.shiftl x k) mod SIZE_MOD.

(** [x + 1] on a [size_t] (what [x++] stores back). *)
Definition size_succ (x : N) : N := (x + 1) mod SIZE_MOD.

(** Modelled from the spec: [BBIndex] and [dfsan_label] come from
    [dfsan/dfsan_types.h], which is not part of the sources at hand.  The
    specification describes both as opaque small integers that are comparable
    and hashable; [std::thread::id] is an opaque, hashable identity too. *)
Definition BBIndex : Type := N.
Definition dfsan_label : Type := N.
Definition thread_id : Type := N.

(** What an operation yields: a value, or nothing because it dereferenced a
    pointer to no object (undefined behaviour in C++), or because the bound on
    loop iterations that the model carries was reached. *)
Inductive outcome (A : Type) : Type :=
| Ret (a : A)
| Undefined
| OutOfFuel.
Arguments Ret {A} a.
Arguments Undefined {A}.
Arguments OutOfFuel {A}.

(** ** [strcmp]

    A C string is held as the bytes found at its address; the comparison
    stops at the first difference or at a terminating NUL, the end of the
    Rocq string standing for a terminator too.  The sign of the result is
    what the C standard fixes; the value here is the difference of the two
    bytes read as [unsigned char]. *)
Definition uchar (c : ascii) : Z := Z.of_N (N_of_ascii c).

Fixpoint strcmp (s1 s2 : string) : Z :=
  match s1, s2 with
  | EmptyString, EmptyString => 0%Z
  | EmptyString, String c2 _ => (0 - uchar c2)%Z
  | String c1 _, EmptyString => (uchar c1 - 0)%Z
  | String c1 r1, String c2 r2 =>
      if (uchar c1 =? uchar c2)%Z
      then if (uchar c1 =? 0)%Z then 0%Z else strcmp r1 r2
      else (uchar c1 - uchar c2)%Z
  end.

(** The bytes of a C string up to, and without, its terminator. *)
Fixpoint c_str (s : string) : string :=
  match s with
  | EmptyString => EmptyString
  | String c r => if (uchar c =? 0)%Z then EmptyString else String c (c_str r)
  end.

(** ** [struct BasicBlockTrace] *)

Record BasicBlockTrace : Type := mkBasicBlockTrace {
  bbt_fname : ptr;          (* const char *fname *)
  bbt_index : BBIndex;      (* BBIndex index *)
  bbt_entryCount : N        (* size_t entryCount *)
}.

Section BasicBlockTraceOps.

(** The read-only memory holding the function names: the characters found at
    an address. *)
Variable chars_at : ptr -> string.

(** [std::hash<uint64_t>] and [std::hash<size_t>]: left to the standard
    library's implementation, so they are parameters here. *)
Variable std_hash_uint64 : N -> N.
Variable std_hash_size_t : N -> N.

(** [BasicBlockTrace::operator==]: the names are compared as pointers. *)
Definition BasicBlockTrace_eq (a other : BasicBlockTrace) : bool :=
  (bbt_fname a =? bbt_fname other)
  && (bbt_index a =? bbt_index other)
  && (bbt_entryCount a =? bbt_entryCount other).

(** [BasicBlockTrace::operator<]. *)
Definition BasicBlockTrace_lt (a rhs : BasicBlockTrace) : bool :=
  let fnameCmp := strcmp (chars_at (bbt_fname a)) (chars_at (bbt_fname rhs)) in
  if (fnameCmp =? 0)%Z then
    if bbt_index a =? bbt_index rhs then
      bbt_entryCount a <? bbt_entryCount rhs
    else
      bbt_index a <? bbt_index rhs
  else
    (fnameCmp <? 0)%Z.

(** [BasicBlockTraceHasher<BasicBlockTrace>::operator()]. *)
Definition BasicBlockTraceHasher (bb : BasicBlockTrace) : N :=
  N.lxor (size_shl (std_hash_uint64 (bbt_index bb)) 1)
         (size_shl (std_hash_size_t (bbt_entryCount bb)) 1).

(** [BasicBlockTraceComparator::operator()]: the result of [operator<]
    converted to [size_t]. *)
Definition BasicBlockTraceComparator (lhs rhs : BasicBlockTrace) : N :=
  if BasicBlockTrace_lt lhs rhs then 1 else 0.

End BasicBlockTraceOps.

(** ** The [TraceEvent] hierarchy

    The dynamic type of an event, with the members each class adds.  A plain
    [TraceEvent] can be constructed too (the class is not abstract). *)
Inductive EventKind : Type :=
| PlainEvent
| BasicBlockEntry (entryCounter : N) (fname : ptr) (index : BBIndex)
| FunctionCall (fname : ptr)
| FunctionReturn (fname : ptr) (returningTo : ptr).

Record TraceEvent : Type := mkTraceEvent {
  previous : ptr;           (* TraceEvent *previous *)
  eventIndex : N;           (* size_t eventIndex *)
  kind : EventKind
}.

(** [dynamic_cast<const BasicBlockEntry*>(event) != nullptr]. *)
Definition is_BasicBlockEntry (ev : TraceEvent) : bool :=
  match kind ev with BasicBlockEntry _ _ _ => true | _ => false end.

(** [dynamic_cast<FunctionCall*>(event) != nullptr]. *)
Definition is_FunctionCall (ev : TraceEvent) : bool :=
  match kind ev with FunctionCall _ => true | _ => false end.

(** The store of event objects: which address holds which event. *)
Abbreviation heap := (gmap ptr TraceEvent).

(** Modelled from the spec: the constructor [TraceEvent::TraceEvent()] is
    declared in the header and defined elsewhere.  By the specification it
    assigns the next value of the process-wide counter [numTraceEvents] to
    [eventIndex], increments the counter once, and leaves [previous] unset.
    The counter is the [size_t] declared in the header. *)
Definition TraceEvent_ctor (k : EventKind) (numTraceEvents : N)
  : TraceEvent * N :=
  ({| previous := nullptr; eventIndex := numTraceEvents; kind := k |},
   size_succ numTraceEvents).

(** Constructing events one after the other, oldest first; the counter is
    threaded through. *)
Fixpoint construct_all (ks : list EventKind) (numTraceEvents : N)
  : list TraceEvent * N :=
  match ks with
  | [] => ([], numTraceEvents)
  | k :: ks' =>
      let '(ev, n1) := TraceEvent_ctor k numTraceEvents in
      let '(evs, n2) := construct_all ks' n1 in
      (ev :: evs, n2)
  end.

(** Modelled from the spec: [numTraceEvents] and the constructor
    [TraceEvent::TraceEvent()] in the specification's own terms.  The counter
    is "initialized to zero at process start, incremented exactly once per
    constructed TraceEvent, never reset or decremented during the process
    lifetime", and the constructor "assigns the next value from
    numTraceEvents"; the constructor's body is not in the header.  A counter
    that is never reset does not wrap, so it is a natural number here.
    Whether the constructor takes the value before or after the increment is
    left open ([pre_increment]).  The constructor above, with its [size_t]
    counter, is the one that takes it before, for as long as the counter has
    not wrapped. *)
Definition TraceEvent_ctor_spec (pre_increment : bool) (k : EventKind)
    (numTraceEvents : N) : TraceEvent * N :=
  let incremented := numTraceEvents + 1 in
  ({| previous := nullptr;
      eventIndex := if pre_increment then incremented else numTraceEvents;
      kind := k |},
   incremented).

(** The constructions of a process, in the order they happen (whichever
    threads make them), oldest first. *)
Fixpoint construct_all_spec (pre_increment : bool) (ks : list EventKind)
    (numTraceEvents : N) : list TraceEvent * N :=
  match ks with
  | [] => ([], numTraceEvents)
  | k :: ks' =>
      let '(ev, n1) := TraceEvent_ctor_spec pre_increment k numTraceEvents in
      let '(evs, n2) := construct_all_spec pre_increment ks' n1 in
      (ev :: evs, n2)
  end.

(** The loop of [FunctionCall::getCaller], from the event it is at. *)
Fixpoint getCaller_loop (fuel : nat) (h : heap) (event : ptr) : outcome ptr :=
  match fuel with
  | O => OutOfFuel
  | S fuel' =>
      if event =? nullptr then Ret nullptr
      else match h !! event with
           | None => Undefined
           | Some ev =>
               if is_BasicBlockEntry ev then Ret event
               else getCaller_loop fuel' h (previous ev)
           end
  end.

(** [const BasicBlockEntry *FunctionCall::getCaller() const], called on the
    object at [this_]: the loop starts at its [previous]. *)
Definition getCaller (fuel : nat) (h : heap) (this_ : ptr) : outcome ptr :=
  match h !! this_ with
  | None => Undefined
  | Some call => getCaller_loop fuel h (previous call)
  end.

(** ** [class TraceEventStack] *)

Record TraceEventStack : Type := mkTraceEventStack {
  head : ptr;                   (* TraceEvent *head *)
  eventHistory : list ptr       (* std::vector<const TraceEvent*> *)
}.

(** [TraceEventStack::TraceEventStack()]. *)
Definition TraceEventStack_new : TraceEventStack :=
  {| head := nullptr; eventHistory := [] |}.

(** [operator bool() const { return head != nullptr; }] *)
Definition operator_bool (s : TraceEventStack) : bool :=
  negb (head s =? nullptr).

(** [bool empty() const { return head != nullptr; }] *)
Definition empty (s : TraceEventStack) : bool :=
  negb (head s =? nullptr).

(** [TraceEvent *peek() const { return head; }] *)
Definition peek (s : TraceEventStack) : ptr := head s.

(** [void push(TraceEvent *event)]: writes [event->previous], so the event
    must be an object of the store. *)
Definition push (h : heap) (s : TraceEventStack) (event : ptr)
  : outcome (heap * TraceEventStack) :=
  match h !! event with
  | None => Undefined
  | Some ev =>
      Ret (<[event := {| previous := head s;
                         eventIndex := eventIndex ev;
                         kind := kind ev |}]> h,
           {| head := event; eventHistory := eventHistory s ++ [event] |})
  end.

(** [bool pop()]: reads [head->previous] when the head is set; the store is
    handed back as it was received. *)
Definition pop (h : heap) (s : TraceEventStack)
  : outcome (heap * TraceEventStack * bool) :=
  if negb (head s =? nullptr) then
    match h !! head s with
    | None => Undefined
    | Some oldHead =>
        Ret (h, {| head := previous oldHead; eventHistory := eventHistory s |}, true)
    end
  else Ret (h, s, false).

(** [new T(args...)]: the object is placed at an address that holds no object
    yet and is not null. *)
Definition new_addr (h : heap) : ptr := fresh ({[nullptr]} ∪ dom h).

(** [T *emplace(Ts &&... args)]: construct, then [push]; the new event's
    address is returned. *)
Definition emplace (h : heap) (numTraceEvents : N) (s : TraceEventStack)
    (k : EventKind) : outcome (heap * N * TraceEventStack * ptr) :=
  let t := new_addr h in
  let '(ev, n1) := TraceEvent_ctor k numTraceEvents in
  match push (<[t := ev]> h) s t with
  | Ret (h1, s1) => Ret (h1, n1, s1, t)
  | Undefined => Undefined
  | OutOfFuel => OutOfFuel
  end.

(** ** [class Trace] *)

Record Trace : Type := mkTrace {
  lastUsages : gmap dfsan_label ptr;
      (* std::unordered_map<dfsan_label, const BasicBlockEntry *> *)
  lastUsagesByBB : gmap ptr (gset dfsan_label);
      (* std::unordered_map<const BasicBlockEntry *, std::set<dfsan_label>> *)
  eventStacks : gmap thread_id TraceEventStack
      (* std::unordered_map<std::thread::id, TraceEventStack> *)
}.

(** A freshly constructed [Trace]: the three maps are empty. *)
Definition Trace_new : Trace :=
  {| lastUsages := ∅; lastUsagesByBB := ∅; eventStacks := ∅ |}.

(** [eventStacks[key]]: [operator[]] of [std::unordered_map] inserts a
    default-constructed stack when the key is absent.  The reference it
    returns designates the slot of [key]. *)
Definition eventStacks_subscript (tr : Trace) (key : thread_id) : Trace :=
  match eventStacks tr !! key with
  | Some _ => tr
  | None =>
      {| lastUsages := lastUsages tr;
         lastUsagesByBB := lastUsagesByBB tr;
         eventStacks := <[key := TraceEventStack_new]> (eventStacks tr) |}
  end.

(** [lastUsagesByBB[key]], in the same way, with an empty set as default. *)
Definition lastUsagesByBB_subscript (m : gmap ptr (gset dfsan_label)) (key : ptr)
  : gmap ptr (gset dfsan_label) :=
  match m !! key with
  | Some _ => m
  | None => <[key := ∅]> m
  end.

Section OnThread.

(** [std::this_thread::get_id()]: the identity of the calling thread. *)
Variable this_thread : thread_id.

(** [TraceEventStack &getStack(std::thread::id thread)]: the trace after the
    call, and the slot of [eventStacks] the returned reference designates. *)
Definition getStack (tr : Trace) (thread : thread_id) : Trace * thread_id :=
  (eventStacks_subscript tr this_thread, this_thread).

(** [TraceEventStack *currentStack()]. *)
Definition currentStack (tr : Trace) : Trace * thread_id :=
  (eventStacks_subscript tr this_thread, this_thread).

(** [const TraceEventStack *currentStack() const]: [None] is the null
    pointer. *)
Definition currentStack_const (tr : Trace) : option TraceEventStack :=
  eventStacks tr !! this_thread.

(** [TraceEvent *lastEvent() const]. *)
Definition lastEvent (tr : Trace) : ptr :=
  match currentStack_const tr with
  | Some stack => peek stack
  | None => nullptr
  end.

(** [TraceEvent *secondToLastEvent() const]. *)
Definition secondToLastEvent (h : heap) (tr : Trace) : outcome ptr :=
  let last := lastEvent tr in
  if negb (last =? nullptr) then
    match h !! last with
    | None => Undefined
    | Some ev => Ret (previous ev)
    end
  else Ret nullptr.

(** The loop of [currentBB], from the event it is at. *)
Fixpoint currentBB_loop (fuel : nat) (h : heap) (event : ptr) : outcome ptr :=
  match fuel with
  | O => OutOfFuel
  | S fuel' =>
      if event =? nullptr then Ret nullptr
      else match h !! event with
           | None => Undefined
           | Some ev =>
               if is_BasicBlockEntry ev then Ret event
               else if is_FunctionCall ev then Ret nullptr
               else currentBB_loop fuel' h (previous ev)
           end
  end.

(** [const BasicBlockEntry *currentBB() const]. *)
Definition currentBB (fuel : nat) (h : heap) (tr : Trace) : outcome ptr :=
  currentBB_loop fuel h (lastEvent tr).

End OnThread.

(** A trace with its [eventStacks] replaced. *)
Definition with_eventStacks (tr : Trace) (m : gmap thread_id TraceEventStack)
  : Trace :=
  {| lastUsages := lastUsages tr;
     lastUsagesByBB := lastUsagesByBB tr;
     eventStacks := m |}.

(** [currentStack()->emplace<T>(args...)], the way a callback records an
    event on the calling thread: the stack is changed in its slot of
    [eventStacks]. *)
Definition emplace_current (this_thread : thread_id) (h : heap)
    (numTraceEvents : N) (tr : Trace) (k : EventKind)
  : outcome (heap * N * Trace * ptr) :=
  let '(tr1, slot) := currentStack this_thread tr in
  match eventStacks tr1 !! slot with
  | None => Undefined
  | Some s =>
      match emplace h numTraceEvents s k with
      | Ret (h1, n1, s1, t) =>
          Ret (h1, n1, with_eventStacks tr1 (<[slot := s1]> (eventStacks tr1)), t)
      | Undefined => Undefined
      | OutOfFuel => OutOfFuel
      end
  end.

(** [void setLastUsage(dfsan_label canonicalByte, const BasicBlockEntry *bb)]. *)
Definition setLastUsage (tr : Trace) (canonicalByte : dfsan_label) (bb : ptr)
  : Trace :=
  let byBB1 :=
    match lastUsages tr !! canonicalByte with
    | Some oldValue =>
        let m := lastUsagesByBB_subscript (lastUsagesByBB tr) oldValue in
        <[oldValue := default ∅ (m !! oldValue) ∖ {[canonicalByte]}]> m
    | None => lastUsagesByBB tr
    end in
  let lastUsages1 := <[canonicalByte := bb]> (lastUsages tr) in
  let byBB2 := lastUsagesByBB_subscript byBB1 bb in
  {| lastUsages := lastUsages1;
     lastUsagesByBB := <[bb := default ∅ (byBB2 !! bb) ∪ {[canonicalByte]}]> byBB2;
     eventStacks := eventStacks tr |}.

(** [const BasicBlockEntry *getLastUsage(dfsan_label label) const]. *)
Definition getLastUsage (tr : Trace) (label : dfsan_label) : ptr :=
  match lastUsages tr !! label with
  | Some bb => bb
  | None => nullptr
  end.

(** [decltype(lastUsages) taints() const]. *)
Definition taints (tr : Trace) : gmap dfsan_label ptr := lastUsages tr.

(** [const std::set<dfsan_label> taints(const BasicBlockEntry *bb) const]. *)
Definition taints_of (tr : Trace) (bb : ptr) : gset dfsan_label :=
  match lastUsagesByBB tr !! bb with
  | None => ∅
  | Some s => s
  end.

(** A run of [setLastUsage] calls, first call first. *)
Definition setLastUsage_all (tr : Trace) (calls : list (dfsan_label * ptr)) : Trace :=
  foldl (fun t c => setLastUsage t c.1 c.2) tr calls.

(** ** Chains of events

    [chain h p l]: following [previous] from [p] in the store [h] visits
    exactly the events of [l], nearest first, and then reaches the null
    pointer. *)
Inductive chain (h : heap) : ptr -> list (ptr * TraceEvent) -> Prop :=
| chain_end : chain h nullptr []
| chain_link (p : ptr) (ev : TraceEvent) (l : list (ptr * TraceEvent)) :
    p ≠ nullptr ->
    h !! p = Some ev ->
    chain h (previous ev) l ->
    chain h p ((p, ev) :: l).

(** The events a walk steps over: [currentBB] steps over what is neither a
    block entry nor a call, [getCaller] over what is not a block entry. *)
Definition passed_by_currentBB (pe : ptr * TraceEvent) : Prop :=
  is_BasicBlockEntry pe.2 = false ∧ is_FunctionCall pe.2 = false.

Definition passed_by_getCaller (pe : ptr * TraceEvent) : Prop :=
  is_BasicBlockEntry pe.2 = false.

(** What [currentBB] answers at the head of a chain [l]: the block entry it
    met first, or nothing because it met a call first, or nothing because the
    chain ended. *)
Definition currentBB_answer (l : list (ptr * TraceEvent)) (r : ptr) : Prop :=
  (exists l1 p ev l2,
      l = l1 ++ (p, ev) :: l2 /\ Forall passed_by_currentBB l1
      /\ is_BasicBlockEntry ev = true /\ r = p /\ p ≠ nullptr)
  \/ (exists l1 p ev l2,
      l = l1 ++ (p, ev) :: l2 /\ Forall passed_by_currentBB l1
      /\ is_FunctionCall ev = true /\ r = nullptr)
  \/ (Forall passed_by_currentBB l /\ r = nullptr).

(** What [getCaller] answers where the chain [l] starts at the call's
    [previous]: the nearest block entry, or nothing. *)
Definition getCaller_answer (l : list (ptr * TraceEvent)) (r : ptr) : Prop :=
  (exists l1 p ev l2,
      l = l1 ++ (p, ev) :: l2 /\ Forall passed_by_getCaller l1
      /\ is_BasicBlockEntry ev = true /\ r = p /\ p ≠ nullptr)
  \/ (Forall passed_by_getCaller l /\ r = nullptr).

(** The same answers, computed from the list of events: the nearest block
    entry with no call before it, and the nearest block entry. *)
Fixpoint nearest_block_before_call (l : list (ptr * TraceEvent)) : ptr :=
  match l with
  | [] => nullptr
  | (p, ev) :: l' =>
      if is_BasicBlockEntry ev then p
      else if is_FunctionCall ev then nullptr
      else nearest_block_before_call l'
  end.

Fixpoint nearest_block (l : list (ptr * TraceEvent)) : ptr :=
  match l with
  | [] => nullptr
  | (p, ev) :: l' =>
      if is_BasicBlockEntry ev then p else nearest_block l'
  end.

(** The two last-usage maps mirror each other: a label is in the set of a
    block exactly when [lastUsages] maps the label to that block. *)
Definition dual_map_inv (tr : Trace) : Prop :=
  forall label bb, label ∈ taints_of tr bb <-> lastUsages tr !! label = Some bb.

(** ** The destructor, and runs of operations *)

(** The loop of [TraceEventStack::~TraceEventStack()]: [delete event] for
    each entry of [eventHistory], first entry first.  Deleting the null
    pointer does nothing; deleting an address that holds no object (one
    deleted before, say) is undefined. *)
Fixpoint delete_all (h : heap) (events : list ptr) : outcome heap :=
  match events with
  | [] => Ret h
  | event :: rest =>
      if event =? nullptr then delete_all h rest
      else match h !! event with
           | None => Undefined
           | Some _ => delete_all (delete event h) rest
           end
  end.

(** [TraceEventStack::~TraceEventStack()]: the store once the stack is gone. *)
Definition TraceEventStack_dtor (h : heap) (s : TraceEventStack) : outcome heap :=
  delete_all h (eventHistory s).

(** [currentStack()->pop()]: the stack is changed in its slot of
    [eventStacks]. *)
Definition pop_current (this_thread : thread_id) (h : heap) (tr : Trace)
  : outcome (heap * Trace * bool) :=
  let '(tr1, slot) := currentStack this_thread tr in
  match eventStacks tr1 !! slot with
  | None => Undefined
  | Some s =>
      match pop h s with
      | Ret (h1, s1, b) =>
          Ret (h1, with_eventStacks tr1 (<[slot := s1]> (eventStacks tr1)), b)
      | Undefined => Undefined
      | OutOfFuel => OutOfFuel
      end
  end.

(** What the threads of a process do to a trace, one call after the other:
    thread [t] records an event of kind [k], or pops its stack. *)
Inductive TraceOp : Type :=
| RecordEvent (t : thread_id) (k : EventKind)
| PopEvent (t : thread_id).

(** The state of the process: the store of events, [numTraceEvents] and the
    trace. *)
Definition run_op (st : heap * N * Trace) (op : TraceOp)
  : outcome (heap * N * Trace) :=
  let '(h, n, tr) := st in
  match op with
  | RecordEvent t k =>
      match emplace_current t h n tr k with
      | Ret (h1, n1, tr1, _) => Ret (h1, n1, tr1)
      | Undefined => Undefined
      | OutOfFuel => OutOfFuel
      end
  | PopEvent t =>
      match pop_current t h tr with
      | Ret (h1, tr1, _) => Ret (h1, n, tr1)
      | Undefined => Undefined
      | OutOfFuel => OutOfFuel
      end
  end.

Fixpoint run_ops (ops : list TraceOp) (st : heap * N * Trace)
  : outcome (heap * N * Trace) :=
  match ops with
  | [] => Ret st
  | op :: ops' =>
      match run_op st op with
      | Ret st1 => run_ops ops' st1
      | Undefined => Undefined
      | OutOfFuel => OutOfFuel
      end
  end.

(** The process at its start: no event, the counter at zero, a new trace. *)
Definition initial_state : heap * N * Trace := (∅, 0, Trace_new).

(** How many events a run records. *)
Fixpoint count_records (ops : list TraceOp) : nat :=
  match ops with
  | [] => O
  | RecordEvent _ _ :: ops' => S (count_records ops')
  | PopEvent _ :: ops' => count_records ops'
  end.

(** How many events thread [t] records in a run. *)
Fixpoint count_records_of (t : thread_id) (ops : list TraceOp) : nat :=
  match ops with
  | [] => O
  | RecordEvent u _ :: ops' =>
      if decide (u = t) then S (count_records_of t ops')
      else count_records_of t ops'
  | PopEvent _ :: ops' => count_records_of t ops'
  end.

(** *** Well-formed stacks

    The event at [p], entry [i] of the history [hist], is an object of the
    store, and its [previous] starts a chain of at most [i] events that are
    all entries of [hist]. *)
Definition event_wf (h : heap) (hist : list ptr) (i : nat) (p : ptr) : Prop :=
  exists ev l,
    p ≠ nullptr /\ h !! p = Some ev /\ chain h (previous ev) l
    /\ (length l <= i)%nat /\ Forall (fun pe => pe.1 ∈ hist) l.

(** A stack whose history lists each event once, every entry being
    well-formed, and whose head is unset or an entry of the history. *)
Definition stack_wf (h : heap) (s : TraceEventStack) : Prop :=
  NoDup (eventHistory s)
  /\ (forall i p, eventHistory s !! i = Some p -> event_wf h (eventHistory s) i p)
  /\ (head s = nullptr \/ head s ∈ eventHistory s).

(** A trace whose stacks are well-formed and share no event. *)
Definition trace_wf (h : heap) (tr : Trace) : Prop :=
  (forall t s, eventStacks tr !! t = Some s -> stack_wf h s)
  /\ (forall t1 t2 s1 s2 p,
        t1 ≠ t2 ->
        eventStacks tr !! t1 = Some s1 -> eventStacks tr !! t2 = Some s2 ->
        p ∈ eventHistory s1 -> p ∉ eventHistory s2).

(** The event indices after [c] constructions without a wrap of the
    counter: the counter stands at [c]; every event of the store has an index
    below [c], no two share one, and an event's [previous] is nothing or an
    earlier event of the store; along a history the indices grow. *)
Definition counter_inv (c : N) (h : heap) (n : N) (tr : Trace) : Prop :=
  n = c mod SIZE_MOD
  /\ (forall p ev, h !! p = Some ev -> eventIndex ev < c)
  /\ (forall p q evp evq,
        h !! p = Some evp -> h !! q = Some evq ->
        eventIndex evp = eventIndex evq -> p = q)
  /\ (forall p ev,
        h !! p = Some ev ->
        previous ev = nullptr
        \/ exists ev', h !! previous ev = Some ev'
                       /\ eventIndex ev' < eventIndex ev)
  /\ (forall t s i j p q evp evq,
        eventStacks tr !! t = Some s ->
        eventHistory s !! i = Some p -> eventHistory s !! j = Some q ->
        (i < j)%nat ->
        h !! p = Some evp -> h !! q = Some evq ->
        eventIndex evp < eventIndex evq).

(** The most recent call of a run of [setLastUsage] calls that names
    [label], if there is one: the block it passed. *)
Fixpoint last_call (calls : list (dfsan_label * ptr)) (label : dfsan_label)
  : option ptr :=
  match calls with
  | [] => None
  | (c, bb) :: rest =>
      match last_call rest label with
      | Some bb' => Some bb'
      | None => if decide (c = label) then Some bb else None
      end
  end.

(** *** A run to try things on

    Thread 1 enters block 0 of the function named at 100, calls the function
    named at 200, enters its block 0 and returns; meanwhile thread 2 enters a
    block of the function named at 300.  Then thread 1 pops once and thread 2
    twice. *)
Definition example_run : list TraceOp :=
  [ RecordEvent 1 (BasicBlockEntry 0 100 0);
    RecordEvent 1 (FunctionCall 200);
    RecordEvent 2 (BasicBlockEntry 0 300 0);
    RecordEvent 1 (BasicBlockEntry 0 200 0);
    RecordEvent 1 (FunctionReturn 200 1);
    PopEvent 1;
    PopEvent 2;
    PopEvent 2 ].

(** The state that run ends in. *)
Definition example_heap : heap :=
  Eval vm_compute in
    match run_ops example_run initial_state with
    | Ret (h, _, _) => h
    | _ => ∅
    end.

Definition example_counter : N :=
  Eval vm_compute in
    match run_ops example_run initial_state with
    | Ret (_, n, _) => n
    | _ => 0
    end.

Definition example_trace : Trace :=
  Eval vm_compute in
    match run_ops example_run initial_state with
    | Ret (_, _, tr) => tr
    | _ => Trace_new
    end.

(** * Properties *)

(** ** [strcmp] orders C strings *)

Lemma uchar_range (c : ascii) : (0 <= uchar c < 256)%Z.
Proof.
  unfold uchar. pose proof (N_ascii_bounded c) as Hc. lia.
Qed.

Lemma uchar_inj (c1 c2 : ascii) : uchar c1 = uchar c2 -> c1 = c2.
Proof.
  unfold uchar. intros Heq. apply N2Z.inj in Heq.
  rewrite <- (ascii_N_embedding c1), <- (ascii_N_embedding c2).
  now rewrite Heq.
Qed.

Ltac strcmp_cases :=
  repeat match goal with
         | |- context [Z.eqb ?x ?y] => destruct (Z.eqb_spec x y)
         | H : context [Z.eqb ?x ?y] |- _ => destruct (Z.eqb_spec x y)
         end.

Lemma strcmp_refl (s : string) : strcmp s s = 0%Z.
Proof.
  induction s as [|c r IH]; simpl; [reflexivity|].
  strcmp_cases; congruence.
Qed.

Lemma strcmp_antisym (s t : string) : strcmp t s = (- strcmp s t)%Z.
Proof.
  revert t; induction s as [|c r IH]; intros [|d t']; simpl;
    try lia.
  strcmp_cases; try lia. apply IH.
Qed.

Lemma strcmp_lt_trans (s t u : string) :
  (strcmp s t < 0)%Z -> (strcmp t u < 0)%Z -> (strcmp s u < 0)%Z.
Proof.
  revert t u; induction s as [|c r IH]; intros [|d t'] [|e u']; simpl;
    intros H1 H2;
    try pose proof (uchar_range c); try pose proof (uchar_range d);
    try pose proof (uchar_range e); strcmp_cases; try lia.
  eapply IH; eassumption.
Qed.

(** Strings that compare equal are interchangeable on either side. *)
Lemma strcmp_eq_l (s t u : string) :
  strcmp s t = 0%Z -> strcmp s u = strcmp t u.
Proof.
  revert t u; induction s as [|c r IH]; intros [|d t'] [|e u']; simpl;
    intros H; try pose proof (uchar_range c); try pose proof (uchar_range d);
    try pose proof (uchar_range e); strcmp_cases; try lia; try congruence.
  now apply IH.
Qed.

Lemma strcmp_eq_r (s t u : string) :
  strcmp s t = 0%Z -> strcmp u s = strcmp u t.
Proof.
  intros H. rewrite (strcmp_antisym s u), (strcmp_antisym t u).
  now rewrite (strcmp_eq_l s t u H).
Qed.

(** [strcmp] reads its arguments up to their terminators only, and on those
    bytes it is the lexicographic comparison of strings. *)
Lemma strcmp_zero_iff (s t : string) :
  strcmp s t = 0%Z <-> c_str s = c_str t.
Proof.
  revert t; induction s as [|c r IH]; intros [|d t']; simpl.
  - tauto.
  - pose proof (uchar_range d). destruct (Z.eqb_spec (uchar d) 0);
      split; intros; try lia; congruence.
  - pose proof (uchar_range c). destruct (Z.eqb_spec (uchar c) 0);
      split; intros; try lia; congruence.
  - destruct (Z.eqb_spec (uchar c) (uchar d)) as [Hcd|Hcd].
    + rewrite <- Hcd. destruct (Z.eqb_spec (uchar c) 0); [tauto|].
      rewrite IH. apply uchar_inj in Hcd. subst d. split; congruence.
    + split; [lia|]. intros Heq. exfalso.
      destruct (Z.eqb_spec (uchar c) 0), (Z.eqb_spec (uchar d) 0);
        try discriminate; try lia.
      injection Heq as -> _. congruence.
Qed.

Lemma strcmp_neg_iff (s t : string) :
  (strcmp s t < 0)%Z <-> String.compare (c_str s) (c_str t) = Lt.
Proof.
  revert t; induction s as [|c r IH]; intros [|d t']; simpl.
  - split; [lia|discriminate].
  - pose proof (uchar_range d). destruct (Z.eqb_spec (uchar d) 0);
      simpl; split; intros; try lia; try congruence.
  - pose proof (uchar_range c). destruct (Z.eqb_spec (uchar c) 0);
      simpl; split; intros; try lia; congruence.
  - pose proof (uchar_range c). pose proof (uchar_range d).
    unfold uchar in *.
    destruct (Z.eqb_spec (Z.of_N (N_of_ascii c)) (Z.of_N (N_of_ascii d)))
      as [Hcd|Hcd].
    + rewrite <- Hcd.
      destruct (Z.eqb_spec (Z.of_N (N_of_ascii c)) 0); simpl.
      * split; [lia|discriminate].
      * unfold Ascii.compare. apply N2Z.inj in Hcd.
        rewrite Hcd, N.compare_refl. apply IH.
    + destruct (Z.eqb_spec (Z.of_N (N_of_ascii c)) 0),
        (Z.eqb_spec (Z.of_N (N_of_ascii d)) 0); simpl;
        unfold Ascii.compare;
        try destruct (N.compare_spec (N_of_ascii c) (N_of_ascii d));
        try lia;
        first [ split; [lia|discriminate] | split; [reflexivity|lia]
              | split; [lia|reflexivity] | split; [discriminate|lia] ].
Qed.

(** ** [BasicBlockTrace]: ordering, equality and hash *)

Section BasicBlockTraceOrder.

Variable chars_at : ptr -> string.

Local Abbreviation lt := (BasicBlockTrace_lt chars_at).
Local Abbreviation name a := (chars_at (bbt_fname a)).

(** What [operator<] computes, case by case. *)
Lemma BasicBlockTrace_lt_spec (a b : BasicBlockTrace) :
  lt a b = true <->
  (strcmp (name a) (name b) < 0)%Z
  \/ (strcmp (name a) (name b) = 0%Z
      /\ (bbt_index a < bbt_index b
          \/ (bbt_index a = bbt_index b
              /\ bbt_entryCount a < bbt_entryCount b))).
Proof.
  unfold BasicBlockTrace_lt.
  destruct (Z.eqb_spec (strcmp (name a) (name b)) 0) as [H0|H0].
  - destruct (N.eqb_spec (bbt_index a) (bbt_index b)) as [Hi|Hi].
    + rewrite N.ltb_lt. split; [intros; right; lia | intros [?|[_ [?|[_ ?]]]]; lia].
    + rewrite N.ltb_lt. split; [intros; right; lia | intros [?|[_ [?|[? ?]]]]; lia].
  - rewrite Z.ltb_lt. split; [tauto | intros [?|[? _]]; [assumption | lia]].
Qed.

Lemma BasicBlockTrace_lt_irrefl (a : BasicBlockTrace) : lt a a = false.
Proof.
  apply not_true_iff_false. rewrite BasicBlockTrace_lt_spec, strcmp_refl. lia.
Qed.

Lemma BasicBlockTrace_lt_trans (a b c : BasicBlockTrace) :
  lt a b = true -> lt b c = true -> lt a c = true.
Proof.
  rewrite !BasicBlockTrace_lt_spec.
  intros [Hab|[Hab Hab']] [Hbc|[Hbc Hbc']].
  - left. eapply strcmp_lt_trans; eassumption.
  - left. rewrite <- (strcmp_eq_r _ _ (name a) Hbc). assumption.
  - left. rewrite (strcmp_eq_l _ _ (name c) Hab). assumption.
  - right. split; [|lia].
    rewrite (strcmp_eq_l _ _ (name c) Hab). assumption.
Qed.

(** Two traces neither of which is below the other agree on the name read as
    a C string, on the block index and on the entry count. *)
Lemma BasicBlockTrace_incomparable (a b : BasicBlockTrace) :
  lt a b = false /\ lt b a = false <->
  strcmp (name a) (name b) = 0%Z
  /\ bbt_index a = bbt_index b /\ bbt_entryCount a = bbt_entryCount b.
Proof.
  rewrite <- !not_true_iff_false, !BasicBlockTrace_lt_spec.
  rewrite (strcmp_antisym (name a) (name b)).
  split.
  - intros [H1 H2].
    assert (strcmp (name a) (name b) = 0%Z) as H0 by lia.
    rewrite H0 in *. lia.
  - intros (H0 & Hi & Hc). rewrite H0. lia.
Qed.

End BasicBlockTraceOrder.

(** C7.  [BasicBlockTrace::operator<] is a strict weak order: it is
    irreflexive and transitive, and being incomparable is transitive.  It
    compares lexicographically, first the function names as strings (byte by
    byte, as [strcmp] does), then the block indices, then the entry counts.
    In particular (f,0,0) < (f,0,1) < (f,1,0) for one name f, and every trace
    of a function named "a" is below every trace of a function named "b",
    whatever their indices and counts. *)
Theorem BasicBlockTrace_lt_strict_weak_order (chars_at : ptr -> string) :
  let lt := BasicBlockTrace_lt chars_at in
  let name a := c_str (chars_at (bbt_fname a)) in
  (forall a, lt a a = false)
  /\ (forall a b c, lt a b = true -> lt b c = true -> lt a c = true)
  /\ (forall a b c,
        lt a b = false -> lt b a = false ->
        lt b c = false -> lt c b = false ->
        lt a c = false /\ lt c a = false)
  /\ (forall a b,
        lt a b = true <->
        String.compare (name a) (name b) = Lt
        \/ (name a = name b
            /\ (bbt_index a < bbt_index b
                \/ (bbt_index a = bbt_index b
                    /\ bbt_entryCount a < bbt_entryCount b))))
  /\ (forall f,
        lt (mkBasicBlockTrace f 0 0) (mkBasicBlockTrace f 0 1) = true
        /\ lt (mkBasicBlockTrace f 0 1) (mkBasicBlockTrace f 1 0) = true
        /\ lt (mkBasicBlockTrace f 0 0) (mkBasicBlockTrace f 1 0) = true)
  /\ (forall fa fb i c i' c',
        chars_at fa = "a"%string -> chars_at fb = "b"%string ->
        lt (mkBasicBlockTrace fa i c) (mkBasicBlockTrace fb i' c') = true
        /\ lt (mkBasicBlockTrace fb i' c') (mkBasicBlockTrace fa i c) = false).
Proof.
  cbv zeta. repeat apply conj.
  - apply BasicBlockTrace_lt_irrefl.
  - apply BasicBlockTrace_lt_trans.
  - intros a b c Hab Hba Hbc Hcb.
    apply BasicBlockTrace_incomparable.
    destruct (proj1 (BasicBlockTrace_incomparable chars_at a b) (conj Hab Hba))
      as (Hn1 & Hi1 & Hc1).
    destruct (proj1 (BasicBlockTrace_incomparable chars_at b c) (conj Hbc Hcb))
      as (Hn2 & Hi2 & Hc2).
    rewrite (strcmp_eq_l _ _ _ Hn1). repeat split; congruence.
  - intros a b. rewrite BasicBlockTrace_lt_spec.
    now rewrite strcmp_neg_iff, strcmp_zero_iff.
  - intros f. rewrite !BasicBlockTrace_lt_spec; simpl.
    rewrite strcmp_refl. repeat split; right; split; trivial; lia.
  - intros fa fb i c i' c' Ha Hb. split.
    + apply BasicBlockTrace_lt_spec; simpl. rewrite Ha, Hb. left. reflexivity.
    + unfold BasicBlockTrace_lt; simpl. rewrite Ha, Hb. reflexivity.
Qed.

(** The order at concrete traces: names stored at addresses 100 and 200. *)
Example BasicBlockTrace_lt_examples :
  let chars_at (p : ptr) := if p =? 100 then "a"%string else "b"%string in
  BasicBlockTrace_lt chars_at (mkBasicBlockTrace 100 7 9) (mkBasicBlockTrace 200 0 0) = true
  /\ BasicBlockTrace_lt chars_at (mkBasicBlockTrace 200 0 0) (mkBasicBlockTrace 100 7 9) = false
  /\ BasicBlockTrace_lt chars_at (mkBasicBlockTrace 100 0 1) (mkBasicBlockTrace 100 1 0) = true
  /\ BasicBlockTrace_lt chars_at (mkBasicBlockTrace 100 1 0) (mkBasicBlockTrace 100 0 1) = false.
Proof. repeat split. Qed.

(** C8.  The hash agrees with equality: traces that [operator==] holds
    equal hash alike.  The hash reads the block index and the entry count
    only, so replacing the function name alone leaves it unchanged, while
    [operator==] holds exactly when all three members agree. *)
Theorem BasicBlockTraceHasher_consistent (std_hash_uint64 std_hash_size_t : N -> N) :
  let hash := BasicBlockTraceHasher std_hash_uint64 std_hash_size_t in
  (forall a b, BasicBlockTrace_eq a b = true -> hash a = hash b)
  /\ (forall a b,
        bbt_index a = bbt_index b -> bbt_entryCount a = bbt_entryCount b ->
        hash a = hash b)
  /\ (forall a fname',
        hash (mkBasicBlockTrace fname' (bbt_index a) (bbt_entryCount a)) = hash a)
  /\ (forall a b,
        BasicBlockTrace_eq a b = true <->
        bbt_fname a = bbt_fname b /\ bbt_index a = bbt_index b
        /\ bbt_entryCount a = bbt_entryCount b)
  /\ (forall a fname',
        fname' <> bbt_fname a ->
        BasicBlockTrace_eq a
          (mkBasicBlockTrace fname' (bbt_index a) (bbt_entryCount a)) = false).
Proof.
  cbv zeta.
  assert (forall a b,
            BasicBlockTrace_eq a b = true <->
            bbt_fname a = bbt_fname b /\ bbt_index a = bbt_index b
            /\ bbt_entryCount a = bbt_entryCount b) as Heq.
  { intros a b. unfold BasicBlockTrace_eq.
    rewrite !andb_true_iff, !N.eqb_eq. tauto. }
  repeat apply conj.
  - intros a b Hab. apply Heq in Hab as (_ & Hi & Hc).
    unfold BasicBlockTraceHasher. now rewrite Hi, Hc.
  - intros a b Hi Hc. unfold BasicBlockTraceHasher. now rewrite Hi, Hc.
  - reflexivity.
  - exact Heq.
  - intros a fname' Hne. apply not_true_iff_false. rewrite Heq; simpl.
    intros (Hf & _). congruence.
Qed.

(** With the identity as [std::hash] (what libstdc++ and libc++ do for
    integers), two traces of different functions collide, and the top bit of
    a hashed member is lost in the shift. *)
Example BasicBlockTraceHasher_examples :
  BasicBlockTraceHasher id id (mkBasicBlockTrace 100 3 5) = 12
  /\ BasicBlockTraceHasher id id (mkBasicBlockTrace 200 3 5) = 12
  /\ BasicBlockTrace_eq (mkBasicBlockTrace 100 3 5) (mkBasicBlockTrace 200 3 5) = false
  /\ BasicBlockTraceHasher id id (mkBasicBlockTrace 100 (2 ^ 63) 0) = 0.
Proof. repeat split. Qed.

(** ** [TraceEventStack] *)

(** C3.  After [push(e)], [peek()] is [e]; the event's [previous] is what
    [peek()] gave before the call (the null pointer for an empty stack) and
    the event is otherwise as it was; [e] is the last entry of
    [eventHistory], whose earlier entries keep their places; no other event
    of the store is touched. *)
Theorem push_spec (h : heap) (s : TraceEventStack) (e : ptr) (ev : TraceEvent) :
  h !! e = Some ev ->
  exists h' s',
    push h s e = Ret (h', s')
    /\ peek s' = e
    /\ h' !! e = Some {| previous := peek s;
                         eventIndex := eventIndex ev;
                         kind := kind ev |}
    /\ (head s = nullptr -> previous <$> (h' !! e) = Some nullptr)
    /\ eventHistory s' = eventHistory s ++ [e]
    /\ (forall i x, eventHistory s !! i = Some x -> eventHistory s' !! i = Some x)
    /\ eventHistory s' !! length (eventHistory s) = Some e
    /\ length (eventHistory s') = S (length (eventHistory s))
    /\ (forall p, p ≠ e -> h' !! p = h !! p).
Proof.
  intros He. unfold push. rewrite He.
  eexists _, _. split; [reflexivity|]. simpl.
  repeat apply conj.
  - reflexivity.
  - apply lookup_insert_eq.
  - intros Hs. rewrite lookup_insert_eq. simpl. now rewrite Hs.
  - reflexivity.
  - intros i x Hi. now apply lookup_app_l_Some.
  - rewrite lookup_app_r by lia. now rewrite Nat.sub_diag.
  - rewrite length_app. simpl. lia.
  - intros p Hp. now apply lookup_insert_ne.
Qed.

(** The code of [empty()] is the code of [operator bool()]. *)
Lemma empty_is_operator_bool (s : TraceEventStack) :
  empty s = operator_bool s
  /\ (empty s = true <-> peek s ≠ nullptr).
Proof.
  unfold empty, operator_bool, peek. split; [reflexivity|].
  rewrite negb_true_iff. apply N.eqb_neq.
Qed.

(** C4.  On a stack that was just constructed, whose head is not set,
    [empty()] answers [false], as the boolean conversion does. *)
Theorem empty_of_new_stack :
  peek TraceEventStack_new = nullptr
  /\ empty TraceEventStack_new = false
  /\ operator_bool TraceEventStack_new = false.
Proof. repeat split. Qed.

(** C5.  On a stack whose head is set, [pop()] answers [true], makes
    [peek()] the old head's [previous], and changes neither [eventHistory]
    (the popped event is still in it, at its place) nor any event of the
    store. *)
Theorem pop_spec (h : heap) (s : TraceEventStack) (oldHead : TraceEvent) :
  head s ≠ nullptr ->
  h !! head s = Some oldHead ->
  exists h' s',
    pop h s = Ret (h', s', true)
    /\ peek s' = previous oldHead
    /\ eventHistory s' = eventHistory s
    /\ h' = h
    /\ (forall i x, eventHistory s !! i = Some x ->
                    eventHistory s' !! i = Some x).
Proof.
  intros Hne Hh. unfold pop.
  apply N.eqb_neq in Hne. rewrite Hne. simpl. rewrite Hh.
  eexists _, _. split; [reflexivity|]. simpl. auto.
Qed.

(** On a stack whose head is not set, [pop()] answers [false] and changes
    nothing. *)
Lemma pop_without_head (h : heap) (s : TraceEventStack) :
  head s = nullptr -> pop h s = Ret (h, s, false).
Proof. intros Hs. unfold pop. now rewrite Hs. Qed.

(** ** Walking the [previous] links *)

Lemma chain_inv_null (h : heap) (l : list (ptr * TraceEvent)) :
  chain h nullptr l -> l = [].
Proof. inversion 1; [reflexivity | congruence]. Qed.

(** A chain is a function of the store and of its first event. *)
Lemma chain_functional (h : heap) (p : ptr) (l1 l2 : list (ptr * TraceEvent)) :
  chain h p l1 -> chain h p l2 -> l1 = l2.
Proof.
  intros H1; revert l2.
  induction H1 as [|p ev l Hp Hev _ IH]; intros l2 H2.
  - symmetry. eapply chain_inv_null; eassumption.
  - inversion H2 as [|p' ev' l' _ Hev' Hl']; subst; [congruence|].
    assert (ev' = ev) as -> by congruence.
    f_equal. now apply IH.
Qed.

(** Events of a chain are objects of the store, at addresses that are not
    null. *)
Lemma chain_elem (h : heap) (p : ptr) (l : list (ptr * TraceEvent)) :
  chain h p l -> Forall (fun pe => pe.1 ≠ nullptr /\ h !! pe.1 = Some pe.2) l.
Proof. induction 1; constructor; simpl; auto. Qed.

(** Writing an object at an address the chain does not visit leaves the
    chain as it is. *)
Lemma chain_insert_fresh (h : heap) (p t : ptr) (ev : TraceEvent)
    (l : list (ptr * TraceEvent)) :
  h !! t = None -> chain h p l -> chain (<[t := ev]> h) p l.
Proof.
  intros Ht. induction 1 as [|p e l Hp He _ IH]; constructor; auto.
  rewrite lookup_insert_ne; [assumption | congruence].
Qed.

Lemma currentBB_answer_step (pe : ptr * TraceEvent)
    (l : list (ptr * TraceEvent)) (r : ptr) :
  passed_by_currentBB pe -> currentBB_answer l r -> currentBB_answer (pe :: l) r.
Proof.
  intros Hpe [(l1 & p & ev & l2 & -> & Hl1 & H)
             |[(l1 & p & ev & l2 & -> & Hl1 & H) | [Hl ->]]].
  - left. exists (pe :: l1), p, ev, l2. auto.
  - right; left. exists (pe :: l1), p, ev, l2. auto.
  - right; right. auto.
Qed.

(** The answer is a function of the chain. *)
Lemma currentBB_answer_unique (l : list (ptr * TraceEvent)) (r : ptr) :
  currentBB_answer l r -> r = nearest_block_before_call l.
Proof.
  intros [(l1 & p & ev & l2 & -> & Hl1 & Hbb & -> & _)
         |[(l1 & p & ev & l2 & -> & Hl1 & Hcall & ->) | [Hl ->]]].
  - induction Hl1 as [|[q e] l1 [Hq1 Hq2] _ IH]; simpl in *.
    + now rewrite Hbb.
    + now rewrite Hq1, Hq2.
  - induction Hl1 as [|[q e] l1 [Hq1 Hq2] _ IH]; simpl in *.
    + rewrite Hcall. unfold is_BasicBlockEntry, is_FunctionCall in *.
      now destruct (kind ev).
    + now rewrite Hq1, Hq2.
  - induction Hl as [|[q e] l [Hq1 Hq2] _ IH]; simpl in *; [reflexivity|].
    now rewrite Hq1, Hq2.
Qed.

Lemma currentBB_loop_chain (h : heap) (p : ptr) (l : list (ptr * TraceEvent)) :
  chain h p l ->
  forall fuel, (length l < fuel)%nat ->
  exists r, currentBB_loop fuel h p = Ret r /\ currentBB_answer l r.
Proof.
  induction 1 as [|p ev l Hp Hev Hl IH]; intros [|fuel] Hfuel;
    try (simpl in Hfuel; lia); simpl.
  - exists nullptr. split; [reflexivity|]. right; right. auto.
  - apply N.eqb_neq in Hp as Hp'. rewrite Hp', Hev.
    destruct (is_BasicBlockEntry ev) eqn:Hbb.
    + exists p. split; [reflexivity|]. left. exists [], p, ev, l. auto.
    + destruct (is_FunctionCall ev) eqn:Hcall.
      * exists nullptr. split; [reflexivity|].
        right; left. exists [], p, ev, l. auto.
      * destruct (IH fuel) as (r & Hr & Hans); [simpl in Hfuel; lia|].
        exists r. split; [assumption|].
        apply currentBB_answer_step; [split|]; assumption.
Qed.

(** C1.  Where the events the calling thread's last event leads back to form
    the chain [l], [currentBB()] returns (given as many iterations as the
    chain is long, and one more) the first block entry of [l] when no call
    comes before it, nothing when a call comes before any block entry, and
    nothing when the chain holds neither; a thread that has no stack, or a
    stack whose head is not set, gets nothing. *)
Theorem currentBB_spec (this_thread : thread_id) (h : heap) (tr : Trace)
    (l : list (ptr * TraceEvent)) (fuel : nat) :
  chain h (lastEvent this_thread tr) l ->
  (length l < fuel)%nat ->
  let r := nearest_block_before_call l in
  currentBB this_thread fuel h tr = Ret r
  /\ currentBB_answer l r
  /\ (lastEvent this_thread tr = nullptr -> r = nullptr)
  /\ (eventStacks tr !! this_thread = None -> r = nullptr).
Proof.
  intros Hl Hfuel r.
  destruct (currentBB_loop_chain h _ l Hl fuel Hfuel) as (r' & Hr & Hans).
  assert (r' = r) as -> by now apply currentBB_answer_unique.
  unfold currentBB. split; [assumption|]. split; [assumption|].
  assert (lastEvent this_thread tr = nullptr -> r = nullptr) as Hnull.
  { intros Hnull. rewrite Hnull in Hr.
    destruct fuel; [lia|]. simpl in Hr. congruence. }
  split; [assumption|].
  intros Hnone. apply Hnull. unfold lastEvent, currentStack_const.
  now rewrite Hnone.
Qed.

Lemma getCaller_answer_unique (l : list (ptr * TraceEvent)) (r : ptr) :
  getCaller_answer l r -> r = nearest_block l.
Proof.
  intros [(l1 & p & ev & l2 & -> & Hl1 & Hbb & -> & _) | [Hl ->]].
  - induction Hl1 as [|[q e] l1 Hq _ IH]; simpl in *.
    + now rewrite Hbb.
    + unfold passed_by_getCaller in Hq; simpl in Hq. now rewrite Hq.
  - induction Hl as [|[q e] l Hq _ IH]; simpl in *; [reflexivity|].
    unfold passed_by_getCaller in Hq; simpl in Hq. now rewrite Hq.
Qed.

Lemma getCaller_loop_chain (h : heap) (p : ptr) (l : list (ptr * TraceEvent)) :
  chain h p l ->
  forall fuel, (length l < fuel)%nat ->
  exists r, getCaller_loop fuel h p = Ret r /\ getCaller_answer l r.
Proof.
  induction 1 as [|p ev l Hp Hev Hl IH]; intros [|fuel] Hfuel;
    try (simpl in Hfuel; lia); simpl.
  - exists nullptr. split; [reflexivity|]. right. auto.
  - apply N.eqb_neq in Hp as Hp'. rewrite Hp', Hev.
    destruct (is_BasicBlockEntry ev) eqn:Hbb.
    + exists p. split; [reflexivity|]. left. exists [], p, ev, l. auto.
    + destruct (IH fuel) as (r & Hr & Hans); [simpl in Hfuel; lia|].
      exists r. split; [assumption|].
      destruct Hans as [(l1 & q & e & l2 & -> & Hl1 & H) | [Hall ->]].
      * left. exists ((p, ev) :: l1), q, e, l2. auto.
      * right. auto.
Qed.

(** Calls, returns and plain events are what [getCaller] steps over. *)
Lemma passed_by_getCaller_kinds (p : ptr) (ev : TraceEvent) :
  passed_by_getCaller (p, ev) <->
  match kind ev with BasicBlockEntry _ _ _ => False | _ => True end.
Proof.
  unfold passed_by_getCaller, is_BasicBlockEntry; simpl.
  destruct (kind ev); intuition discriminate.
Qed.

(** C6.  For a [FunctionCall] event whose [previous] starts the chain [l],
    [getCaller()] returns (given as many iterations as the chain is long, and
    one more) the nearest block entry of [l], stepping over the calls and
    returns before it, and nothing when [l] holds no block entry. *)
Theorem getCaller_spec (h : heap) (this_ : ptr) (call : TraceEvent)
    (l : list (ptr * TraceEvent)) (fuel : nat) :
  h !! this_ = Some call ->
  is_FunctionCall call = true ->
  chain h (previous call) l ->
  (length l < fuel)%nat ->
  let r := nearest_block l in
  getCaller fuel h this_ = Ret r
  /\ getCaller_answer l r
  /\ (forall pe,
        (exists fname, kind pe.2 = FunctionCall fname)
        \/ (exists fname ret, kind pe.2 = FunctionReturn fname ret) ->
        passed_by_getCaller pe)
  /\ (l = [] -> r = nullptr).
Proof.
  intros Hthis _ Hl Hfuel r.
  destruct (getCaller_loop_chain h _ l Hl fuel Hfuel) as (r' & Hr & Hans).
  assert (r' = r) as -> by now apply getCaller_answer_unique.
  unfold getCaller. rewrite Hthis.
  repeat apply conj; try assumption.
  - intros [p ev]. rewrite passed_by_getCaller_kinds. simpl.
    intros [[f Hk] | (f & ret & Hk)]; now rewrite Hk.
  - unfold r. now intros ->.
Qed.

(** ** Events created by [emplace] form chains *)

Lemma new_addr_fresh (h : heap) : new_addr h ≠ nullptr /\ h !! new_addr h = None.
Proof.
  unfold new_addr.
  pose proof (is_fresh ({[nullptr]} ∪ dom h)) as Hfresh.
  split; [set_solver|]. apply not_elem_of_dom. set_solver.
Qed.

Lemma emplace_chain (h : heap) (n : N) (s : TraceEventStack) (k : EventKind)
    (l : list (ptr * TraceEvent)) :
  chain h (head s) l ->
  exists h' s' ev,
    emplace h n s k = Ret (h', size_succ n, s', new_addr h)
    /\ ev = {| previous := head s; eventIndex := n; kind := k |}
    /\ h' = <[new_addr h := ev]> h
    /\ head s' = new_addr h
    /\ eventHistory s' = eventHistory s ++ [new_addr h]
    /\ chain h' (head s') ((new_addr h, ev) :: l).
Proof.
  intros Hl. destruct (new_addr_fresh h) as [Hnn Hfresh].
  unfold emplace, TraceEvent_ctor, push. rewrite lookup_insert_eq. simpl.
  rewrite insert_insert_eq.
  eexists _, _, _. split; [reflexivity|].
  repeat apply conj; try reflexivity. simpl.
  constructor; [assumption | apply lookup_insert_eq |].
  simpl. now apply chain_insert_fresh.
Qed.

Lemma pop_chain (h : heap) (s : TraceEventStack) (l : list (ptr * TraceEvent)) :
  chain h (head s) l ->
  exists s' b,
    pop h s = Ret (h, s', b)
    /\ chain h (head s') (tail l)
    /\ eventHistory s' = eventHistory s.
Proof.
  intros Hl. unfold pop. destruct s as [hd hist]; simpl in *.
  destruct Hl as [|p ev l Hp Hev Hl]; simpl.
  - eexists _, _. split; [reflexivity|]. simpl.
    split; [constructor | reflexivity].
  - apply N.eqb_neq in Hp. rewrite Hp, Hev. simpl.
    eexists _, _. split; [reflexivity|]. simpl.
    split; [assumption | reflexivity].
Qed.

(** Pushing one event twice links it to itself; the walk from it never ends,
    which is why the theorems about the walks ask for a chain. *)
Lemma currentBB_loop_on_cycle (h : heap) (e : ptr) (ev : TraceEvent) (fuel : nat) :
  e ≠ nullptr ->
  h !! e = Some ev ->
  kind ev = PlainEvent ->
  previous ev = e ->
  currentBB_loop fuel h e = OutOfFuel.
Proof.
  intros He Hev Hk Hp. apply N.eqb_neq in He.
  induction fuel as [|fuel IH]; simpl; [reflexivity|].
  rewrite He, Hev. unfold is_BasicBlockEntry, is_FunctionCall.
  rewrite Hk, Hp. exact IH.
Qed.

Example push_twice_makes_cycle :
  let h0 : heap := {[1 := mkTraceEvent nullptr 0 PlainEvent]} in
  exists h1 s1 h2 s2,
    push h0 TraceEventStack_new 1 = Ret (h1, s1)
    /\ push h1 s1 1 = Ret (h2, s2)
    /\ h2 !! 1 = Some (mkTraceEvent 1 0 PlainEvent)
    /\ eventHistory s2 = [1; 1].
Proof.
  do 4 eexists. repeat apply conj; vm_compute; reflexivity.
Qed.

(** The example of the specification: after a block entry of f, [currentBB()]
    is that entry; after a call of g, it is nothing; after the first block
    entry of g, it is the new entry.  Thread 7; the names f and g are at
    addresses 100 and 200. *)
Example currentBB_example :
  exists h1 n1 tr1 e1 h2 n2 tr2 e2 h3 n3 tr3 e3,
    emplace_current 7 ∅ 0 Trace_new (BasicBlockEntry 0 100 0) = Ret (h1, n1, tr1, e1)
    /\ currentBB 7 5 h1 tr1 = Ret e1 /\ e1 ≠ nullptr
    /\ emplace_current 7 h1 n1 tr1 (FunctionCall 200) = Ret (h2, n2, tr2, e2)
    /\ currentBB 7 5 h2 tr2 = Ret nullptr
    /\ getCaller 5 h2 e2 = Ret e1
    /\ emplace_current 7 h2 n2 tr2 (BasicBlockEntry 0 200 0) = Ret (h3, n3, tr3, e3)
    /\ currentBB 7 5 h3 tr3 = Ret e3 /\ e3 ≠ nullptr /\ e3 ≠ e1.
Proof.
  do 12 eexists. repeat apply conj; try (vm_compute; reflexivity);
    vm_compute; discriminate.
Qed.

(** ** The last-usage maps of [Trace] *)

Lemma lookup_subscript_default (m : gmap ptr (gset dfsan_label)) (key b : ptr) :
  default ∅ (lastUsagesByBB_subscript m key !! b) = default ∅ (m !! b).
Proof.
  unfold lastUsagesByBB_subscript.
  destruct (m !! key) eqn:Hk; [reflexivity|].
  destruct (decide (key = b)) as [->|Hne].
  - rewrite lookup_insert_eq, Hk. reflexivity.
  - now rewrite lookup_insert_ne.
Qed.

Lemma lookup_insert_default (m : gmap ptr (gset dfsan_label)) (key b : ptr)
    (v : gset dfsan_label) :
  default ∅ (<[key := v]> m !! b)
  = if decide (key = b) then v else default ∅ (m !! b).
Proof.
  rewrite lookup_insert. now destruct (decide (key = b)).
Qed.

Lemma taints_of_default (tr : Trace) (bb : ptr) :
  taints_of tr bb = default ∅ (lastUsagesByBB tr !! bb).
Proof. unfold taints_of. now destruct (lastUsagesByBB tr !! bb). Qed.

Lemma lastUsages_setLastUsage (tr : Trace) (c : dfsan_label) (bb : ptr) :
  lastUsages (setLastUsage tr c bb) = <[c := bb]> (lastUsages tr).
Proof. reflexivity. Qed.

Lemma getLastUsage_setLastUsage (tr : Trace) (c : dfsan_label) (bb : ptr) :
  getLastUsage (setLastUsage tr c bb) c = bb.
Proof.
  unfold getLastUsage. now rewrite lastUsages_setLastUsage, lookup_insert_eq.
Qed.

(** The labels of a block after [setLastUsage(c, bb)]: [c] joins the set of
    [bb] and leaves the set of the block it was recorded for; nothing else
    changes. *)
Lemma elem_of_taints_of_setLastUsage (tr : Trace) (c x : dfsan_label)
    (bb b' : ptr) :
  x ∈ taints_of (setLastUsage tr c bb) b' <->
  (x = c /\ b' = bb)
  \/ (x ∈ taints_of tr b' /\ ~ (x = c /\ lastUsages tr !! c = Some b')).
Proof.
  rewrite !taints_of_default. unfold setLastUsage. simpl.
  rewrite lookup_insert_default, lookup_subscript_default.
  destruct (lastUsages tr !! c) as [old|] eqn:Hold;
    repeat (rewrite lookup_insert_default || rewrite lookup_subscript_default);
    repeat match goal with
           | |- context [decide (?a = ?b)] =>
               destruct (decide (a = b)) as [->|?]
           end;
    rewrite ?elem_of_union, ?elem_of_difference, ?elem_of_singleton;
    intuition congruence.
Qed.

Lemma dual_map_inv_new : dual_map_inv Trace_new.
Proof.
  intros label bb. unfold taints_of. simpl. rewrite !lookup_empty. set_solver.
Qed.

Lemma dual_map_inv_setLastUsage (tr : Trace) (c : dfsan_label) (bb : ptr) :
  dual_map_inv tr -> dual_map_inv (setLastUsage tr c bb).
Proof.
  intros Hinv x b'.
  rewrite elem_of_taints_of_setLastUsage, lastUsages_setLastUsage.
  rewrite (Hinv x b'). destruct (decide (x = c)) as [->|Hne].
  - rewrite lookup_insert_eq. split.
    + intros [[_ ->]|[H1 H2]]; [reflexivity | tauto].
    + intros [= ->]. left. auto.
  - rewrite lookup_insert_ne by congruence. tauto.
Qed.

Lemma dual_map_inv_all (calls : list (dfsan_label * ptr)) :
  forall tr, dual_map_inv tr -> dual_map_inv (setLastUsage_all tr calls).
Proof.
  induction calls as [|[c bb] calls IH]; intros tr Hinv; simpl; [assumption|].
  apply IH. now apply dual_map_inv_setLastUsage.
Qed.

(** Recording a pair that is recorded already changes nothing. *)
Lemma setLastUsage_recorded (tr : Trace) (c : dfsan_label) (bb : ptr)
    (S : gset dfsan_label) :
  lastUsages tr !! c = Some bb ->
  lastUsagesByBB tr !! bb = Some S ->
  c ∈ S ->
  setLastUsage tr c bb = tr.
Proof.
  destruct tr as [lu byBB es]; simpl. intros Hlu Hby Hc.
  unfold setLastUsage, lastUsagesByBB_subscript; simpl.
  rewrite Hlu, Hby. simpl. rewrite !lookup_insert_eq. simpl.
  rewrite insert_insert_eq, Hby. simpl.
  f_equal.
  - now apply insert_id.
  - apply insert_id. rewrite Hby. f_equal.
    apply set_eq. intros x.
    rewrite elem_of_union, elem_of_difference, elem_of_singleton.
    destruct (decide (x = c)) as [->|Hne]; tauto.
Qed.

(** C2.  From any trace, [setLastUsage(L, bbA)] and then
    [setLastUsage(L, bbB)] with bbA and bbB different leave [getLastUsage(L)]
    at bbB, L out of [taints(bbA)] and L in [taints(bbB)].  After any run of
    [setLastUsage] calls on a new trace, a label that [lastUsages] maps to a
    block is in that block's set and in the set of no other block (and a
    label in a block's set is mapped to that block).  Calling
    [setLastUsage] again with the same label and block changes nothing. *)
Theorem setLastUsage_spec :
  (forall tr L bbA bbB,
      bbA ≠ bbB ->
      let tr' := setLastUsage (setLastUsage tr L bbA) L bbB in
      getLastUsage tr' L = bbB
      /\ (L ∉ taints_of tr' bbA)
      /\ (L ∈ taints_of tr' bbB))
  /\ (forall calls label bb,
        let tr := setLastUsage_all Trace_new calls in
        lastUsages tr !! label = Some bb ->
        (label ∈ taints_of tr bb)
        /\ (forall bb', bb' ≠ bb -> label ∉ taints_of tr bb'))
  /\ (forall calls label bb,
        let tr := setLastUsage_all Trace_new calls in
        label ∈ taints_of tr bb -> lastUsages tr !! label = Some bb)
  /\ (forall tr label bb,
        setLastUsage (setLastUsage tr label bb) label bb
        = setLastUsage tr label bb).
Proof.
  repeat apply conj.
  - intros tr L bbA bbB Hne tr'. unfold tr'.
    split; [apply getLastUsage_setLastUsage|].
    rewrite !(elem_of_taints_of_setLastUsage (setLastUsage tr L bbA)).
    rewrite lastUsages_setLastUsage, lookup_insert_eq.
    split; [|left; auto].
    intros [[_ Heq]|[_ Hn]]; [congruence | apply Hn; auto].
  - intros calls label bb tr Hlu.
    pose proof (dual_map_inv_all calls _ dual_map_inv_new) as Hinv.
    fold tr in Hinv. split; [now apply Hinv|].
    intros bb' Hne Hin. apply Hinv in Hin. congruence.
  - intros calls label bb tr Hin.
    now apply (dual_map_inv_all calls _ dual_map_inv_new).
  - intros tr label bb. eapply setLastUsage_recorded.
    + rewrite lastUsages_setLastUsage. apply lookup_insert_eq.
    + unfold setLastUsage; simpl. apply lookup_insert_eq.
    + set_solver.
Qed.

(** The same on a concrete run: label 5 is used in the block at address 10,
    then in the block at 20, while label 6 stays with the block at 10. *)
Example setLastUsage_example :
  let tr := setLastUsage_all Trace_new [(5, 10); (6, 10); (5, 20)] in
  getLastUsage tr 5 = 20 /\ getLastUsage tr 6 = 10 /\ getLastUsage tr 7 = nullptr
  /\ taints_of tr 10 = {[6]} /\ taints_of tr 20 = {[5]} /\ taints_of tr 30 = ∅.
Proof. vm_compute. repeat split. Qed.

(** ** [numTraceEvents] and the event indices *)

Lemma SIZE_MOD_pos : 0 < SIZE_MOD.
Proof. reflexivity. Qed.

Lemma size_succ_add (c i : N) :
  (size_succ c + i) mod SIZE_MOD = (c + N.succ i) mod SIZE_MOD.
Proof.
  unfold size_succ. pose proof SIZE_MOD_pos.
  rewrite N.Div0.add_mod_idemp_l. f_equal. lia.
Qed.

Lemma construct_all_length (ks : list EventKind) (c : N) :
  length (construct_all ks c).1 = length ks.
Proof.
  revert c; induction ks as [|k ks IH]; intros c; simpl; [reflexivity|].
  specialize (IH (size_succ c)).
  destruct (construct_all ks (size_succ c)); simpl in *. now rewrite IH.
Qed.

Lemma construct_all_counter (ks : list EventKind) (c : N) :
  (construct_all ks c).2 mod SIZE_MOD = (c + N.of_nat (length ks)) mod SIZE_MOD.
Proof.
  revert c; induction ks as [|k ks IH]; intros c; simpl.
  - now rewrite N.add_0_r.
  - specialize (IH (size_succ c)).
    destruct (construct_all ks (size_succ c)); simpl in *.
    rewrite IH, size_succ_add. f_equal. lia.
Qed.

Lemma size_succ_lt (c : N) : size_succ c < SIZE_MOD.
Proof. unfold size_succ. apply N.mod_lt. discriminate. Qed.

Lemma construct_all_lookup (ks : list EventKind) (c : N) (i : nat) (k : EventKind) :
  c < SIZE_MOD ->
  ks !! i = Some k ->
  (construct_all ks c).1 !! i
  = Some {| previous := nullptr;
            eventIndex := (c + N.of_nat i) mod SIZE_MOD;
            kind := k |}.
Proof.
  revert c i; induction ks as [|k0 ks IH]; intros c i Hc Hi; [discriminate|].
  simpl. specialize (IH (size_succ c)).
  destruct (construct_all ks (size_succ c)) as [evs n2] eqn:Hrec; simpl in *.
  destruct i as [|i]; simpl in *.
  - injection Hi as ->. rewrite N.add_0_r, N.mod_small by assumption.
    reflexivity.
  - rewrite (IH i (size_succ_lt c) Hi). do 2 f_equal.
    rewrite size_succ_add. f_equal. lia.
Qed.

Lemma construct_all_lookup_inv (ks : list EventKind) (c : N) (i : nat) (ev : TraceEvent) :
  c < SIZE_MOD ->
  (construct_all ks c).1 !! i = Some ev ->
  eventIndex ev = (c + N.of_nat i) mod SIZE_MOD /\ previous ev = nullptr
  /\ ks !! i = Some (kind ev).
Proof.
  intros Hc Hev.
  assert (i < length ks)%nat as Hi.
  { rewrite <- (construct_all_length ks c). eapply lookup_lt_Some; eassumption. }
  destruct (lookup_lt_is_Some_2 ks i Hi) as [k Hk].
  rewrite (construct_all_lookup ks c i k Hc Hk) in Hev.
  injection Hev as <-. simpl. auto.
Qed.

Lemma construct_all_counter_lt (ks : list EventKind) (c : N) :
  c < SIZE_MOD -> (construct_all ks c).2 < SIZE_MOD.
Proof.
  revert c; induction ks as [|k ks IH]; intros c Hc; simpl; [assumption|].
  specialize (IH (size_succ c) (size_succ_lt c)).
  now destruct (construct_all ks (size_succ c)).
Qed.

(** With the [size_t] counter, over a run of at most 2^64 constructions: the
    i-th event constructed (counting from zero) has index i, so the indices
    increase strictly in construction order and no two events share one. *)
Lemma eventIndex_increasing (ks : list EventKind) :
  N.of_nat (length ks) <= SIZE_MOD ->
  let evs := (construct_all ks 0).1 in
  let numTraceEvents' := (construct_all ks 0).2 in
  length evs = length ks
  /\ numTraceEvents' = N.of_nat (length ks) mod SIZE_MOD
  /\ (forall i ev, evs !! i = Some ev -> eventIndex ev = N.of_nat i)
  /\ (forall i j ei ej,
        evs !! i = Some ei -> evs !! j = Some ej -> (i < j)%nat ->
        eventIndex ei < eventIndex ej)
  /\ (forall i j ei ej,
        evs !! i = Some ei -> evs !! j = Some ej ->
        eventIndex ei = eventIndex ej -> i = j).
Proof.
  intros Hlen evs n'.
  assert (forall i ev, evs !! i = Some ev -> eventIndex ev = N.of_nat i) as Hidx.
  { intros i ev Hev.
    assert (i < length ks)%nat as Hi.
    { rewrite <- (construct_all_length ks 0). eapply lookup_lt_Some; eassumption. }
    apply construct_all_lookup_inv in Hev as (-> & _); [|reflexivity].
    rewrite N.add_0_l. apply N.mod_small. lia. }
  repeat apply conj.
  - apply construct_all_length.
  - unfold n'. rewrite <- (N.mod_small (construct_all ks 0).2 SIZE_MOD).
    + now rewrite construct_all_counter.
    + now apply construct_all_counter_lt.
  - exact Hidx.
  - intros i j ei ej Hi Hj Hlt. rewrite (Hidx _ _ Hi), (Hidx _ _ Hj). lia.
  - intros i j ei ej Hi Hj Heq. rewrite (Hidx _ _ Hi), (Hidx _ _ Hj) in Heq. lia.
Qed.

(** The [size_t] constructor is the specification's, taking the value
    before the increment, while the counter has not wrapped. *)
Lemma TraceEvent_ctor_below_wrap (k : EventKind) (n : N) :
  n + 1 < SIZE_MOD ->
  TraceEvent_ctor k n = TraceEvent_ctor_spec false k n.
Proof.
  intros Hn. unfold TraceEvent_ctor, TraceEvent_ctor_spec, size_succ.
  now rewrite N.mod_small.
Qed.





(** A run of three constructions, and the counter at its last value. *)
Example construct_all_example :
  construct_all [BasicBlockEntry 0 100 0; FunctionCall 200; PlainEvent] 0
  = ([ mkTraceEvent nullptr 0 (BasicBlockEntry 0 100 0);
       mkTraceEvent nullptr 1 (FunctionCall 200);
       mkTraceEvent nullptr 2 PlainEvent ], 3)
  /\ TraceEvent_ctor PlainEvent (SIZE_MOD - 1)
     = (mkTraceEvent nullptr (SIZE_MOD - 1) PlainEvent, 0).
Proof. split; reflexivity. Qed.

(** The same three constructions by the specification's constructor, taking
    the value before the increment and after it. *)
Example construct_all_spec_example :
  construct_all_spec false [BasicBlockEntry 0 100 0; FunctionCall 200; PlainEvent] 0
  = ([ mkTraceEvent nullptr 0 (BasicBlockEntry 0 100 0);
       mkTraceEvent nullptr 1 (FunctionCall 200);
       mkTraceEvent nullptr 2 PlainEvent ], 3)
  /\ construct_all_spec true [BasicBlockEntry 0 100 0; FunctionCall 200; PlainEvent] 0
     = ([ mkTraceEvent nullptr 1 (BasicBlockEntry 0 100 0);
          mkTraceEvent nullptr 2 (FunctionCall 200);
          mkTraceEvent nullptr 3 PlainEvent ], 3).
Proof. split; reflexivity. Qed.

(** ** The stack of the calling thread *)

(** C10.  [getStack(t)] does not read [t]: whatever is passed, it returns
    the slot of the calling thread, as [currentStack()] does, after creating
    an empty stack there when the thread had none; the stacks of other
    threads (that of [t] too) and the last-usage maps are left alone. *)
Theorem getStack_ignores_argument (this_thread : thread_id) (tr : Trace)
    (t1 t2 : thread_id) :
  getStack this_thread tr t1 = getStack this_thread tr t2
  /\ getStack this_thread tr t1 = currentStack this_thread tr
  /\ (getStack this_thread tr t1).2 = this_thread
  /\ (let tr' := (getStack this_thread tr t1).1 in
      eventStacks tr' !! this_thread
      = Some (default TraceEventStack_new (eventStacks tr !! this_thread))
      /\ (forall t, t ≠ this_thread ->
                    eventStacks tr' !! t = eventStacks tr !! t)
      /\ (is_Some (eventStacks tr !! this_thread) -> tr' = tr)
      /\ lastUsages tr' = lastUsages tr
      /\ lastUsagesByBB tr' = lastUsagesByBB tr).
Proof.
  unfold getStack, currentStack, eventStacks_subscript; simpl.
  repeat apply conj; try reflexivity;
    destruct (eventStacks tr !! this_thread) as [s|] eqn:Hs; simpl;
    try reflexivity; try assumption.
  - apply lookup_insert_eq.
  - intros t Ht. now apply lookup_insert_ne.
  - intros [s Hs']. discriminate.
Qed.

(** Thread 1 asks for the stack of thread 2 and gets its own; thread 2 is
    given no stack. *)
Example getStack_example :
  let '(tr, slot) := getStack 1 Trace_new 2 in
  slot = 1
  /\ eventStacks tr !! 1 = Some TraceEventStack_new
  /\ eventStacks tr !! 2 = None.
Proof. vm_compute. repeat split. Qed.

(** ** The theorems at concrete states *)

(** Thread 7 has entered block 0 of the function named at 100 (event at
    address 1) and then returned into it (event at address 2): the current
    block is the event at address 1. *)
Lemma currentBB_spec_witness :
  let h : heap :=
    <[2 := mkTraceEvent 1 1 (FunctionReturn 200 1)]>
      (<[1 := mkTraceEvent nullptr 0 (BasicBlockEntry 0 100 0)]> ∅) in
  let tr := with_eventStacks Trace_new {[7 := mkTraceEventStack 2 [1; 2]]} in
  let l := [(2, mkTraceEvent 1 1 (FunctionReturn 200 1));
            (1, mkTraceEvent nullptr 0 (BasicBlockEntry 0 100 0))] in
  chain h (lastEvent 7 tr) l
  /\ (length l < 3)%nat
  /\ currentBB 7 3 h tr = Ret 1
  /\ currentBB_answer l 1.
Proof.
  cbv zeta.
  match goal with |- ?C /\ _ => assert C as Hchain end.
  { change (lastEvent 7 _) with 2.
    apply chain_link; [discriminate | reflexivity |].
    apply chain_link; [discriminate | reflexivity |].
    apply chain_end. }
  split; [exact Hchain|]. split; [simpl; lia|].
  destruct (currentBB_spec 7 _ _ _ 3 Hchain) as (Hr & Hans & _);
    [simpl; lia|].
  split; [exact Hr | exact Hans].
Defined.

(** Pushing the event at address 2 onto a stack whose head is the event at
    address 1. *)
Lemma push_spec_witness :
  let ev1 := mkTraceEvent nullptr 0 (BasicBlockEntry 0 100 0) in
  let ev2 := mkTraceEvent nullptr 1 (FunctionCall 200) in
  let h : heap := <[2 := ev2]> (<[1 := ev1]> ∅) in
  let s := mkTraceEventStack 1 [1] in
  h !! 2 = Some ev2
  /\ exists h' s',
      push h s 2 = Ret (h', s')
      /\ peek s' = 2
      /\ h' !! 2 = Some {| previous := peek s;
                           eventIndex := eventIndex ev2;
                           kind := kind ev2 |}
      /\ (head s = nullptr -> previous <$> (h' !! 2) = Some nullptr)
      /\ eventHistory s' = eventHistory s ++ [2]
      /\ (forall i x, eventHistory s !! i = Some x -> eventHistory s' !! i = Some x)
      /\ eventHistory s' !! length (eventHistory s) = Some 2
      /\ length (eventHistory s') = S (length (eventHistory s))
      /\ (forall p, p ≠ 2 -> h' !! p = h !! p).
Proof.
  cbv zeta. split; [reflexivity|].
  apply (push_spec _ (mkTraceEventStack 1 [1]) 2). reflexivity.
Defined.

(** Popping that stack after the push: the head is the event at address 1
    again, and both events are still in the history. *)
Lemma pop_spec_witness :
  let ev1 := mkTraceEvent nullptr 0 (BasicBlockEntry 0 100 0) in
  let ev2 := mkTraceEvent 1 1 (FunctionCall 200) in
  let h : heap := <[2 := ev2]> (<[1 := ev1]> ∅) in
  let s := mkTraceEventStack 2 [1; 2] in
  head s ≠ nullptr
  /\ h !! head s = Some ev2
  /\ exists h' s',
      pop h s = Ret (h', s', true)
      /\ peek s' = previous ev2
      /\ eventHistory s' = eventHistory s
      /\ h' = h
      /\ (forall i x, eventHistory s !! i = Some x -> eventHistory s' !! i = Some x).
Proof.
  cbv zeta. split; [discriminate|]. split; [reflexivity|].
  apply (pop_spec _ (mkTraceEventStack 2 [1; 2])); [discriminate | reflexivity].
Defined.

(** A call (at address 3) made after a return (at 2) into a block (at 1):
    the caller is the block, the return is stepped over. *)
Lemma getCaller_spec_witness :
  let ev1 := mkTraceEvent nullptr 0 (BasicBlockEntry 0 100 0) in
  let ev2 := mkTraceEvent 1 1 (FunctionReturn 200 1) in
  let ev3 := mkTraceEvent 2 2 (FunctionCall 300) in
  let h : heap := <[3 := ev3]> (<[2 := ev2]> (<[1 := ev1]> ∅)) in
  let l := [(2, ev2); (1, ev1)] in
  h !! 3 = Some ev3
  /\ is_FunctionCall ev3 = true
  /\ chain h (previous ev3) l
  /\ (length l < 3)%nat
  /\ getCaller 3 h 3 = Ret 1
  /\ getCaller_answer l 1.
Proof.
  intros ev1 ev2 ev3 h l.
  assert (h !! 3 = Some ev3) as Hthis by reflexivity.
  assert (is_FunctionCall ev3 = true) as Hcall by reflexivity.
  assert (chain h (previous ev3) l) as Hchain.
  { apply chain_link; [discriminate | reflexivity |].
    apply chain_link; [discriminate | reflexivity |].
    apply chain_end. }
  assert (length l < 3)%nat as Hfuel by (simpl; lia).
  destruct (getCaller_spec h 3 ev3 l 3 Hthis Hcall Hchain Hfuel)
    as (Hr & Hans & _).
  repeat split; assumption.
Defined.


(** * Further properties of the code *)

(** ** Recording and popping on the calling thread *)

(** The stack [operator[]] hands out for a thread: the one it has, or a new
    one. *)
Lemma eventStacks_subscript_lookup (tr : Trace) (t u : thread_id) :
  eventStacks (eventStacks_subscript tr t) !! u
  = if decide (t = u)
    then Some (default TraceEventStack_new (eventStacks tr !! t))
    else eventStacks tr !! u.
Proof.
  unfold eventStacks_subscript.
  destruct (eventStacks tr !! t) as [s|] eqn:Hs; simpl.
  - destruct (decide (t = u)) as [<-|]; [exact Hs | reflexivity].
  - rewrite lookup_insert. destruct (decide (t = u)); reflexivity.
Qed.

Lemma with_eventStacks_subscript (tr : Trace) (t : thread_id) (s : TraceEventStack) :
  with_eventStacks (eventStacks_subscript tr t)
    (<[t := s]> (eventStacks (eventStacks_subscript tr t)))
  = with_eventStacks tr (<[t := s]> (eventStacks tr)).
Proof.
  unfold eventStacks_subscript, with_eventStacks.
  destruct (eventStacks tr !! t); simpl; [reflexivity|].
  now rewrite insert_insert_eq.
Qed.

Lemma emplace_current_eq (t : thread_id) (h : heap) (n : N) (tr : Trace)
    (k : EventKind) :
  let s := default TraceEventStack_new (eventStacks tr !! t) in
  let e := new_addr h in
  emplace_current t h n tr k
  = Ret (<[e := mkTraceEvent (head s) n k]> h,
         size_succ n,
         with_eventStacks tr
           (<[t := mkTraceEventStack e (eventHistory s ++ [e])]> (eventStacks tr)),
         e).
Proof.
  intros s e. unfold emplace_current, currentStack.
  rewrite eventStacks_subscript_lookup.
  destruct (decide (t = t)) as [_|]; [|congruence].
  fold s. unfold emplace, TraceEvent_ctor, push. fold e.
  rewrite lookup_insert_eq. simpl. rewrite insert_insert_eq.
  now rewrite with_eventStacks_subscript.
Qed.

Lemma pop_current_eq (t : thread_id) (h : heap) (tr : Trace) :
  let s := default TraceEventStack_new (eventStacks tr !! t) in
  pop_current t h tr
  = if head s =? nullptr
    then Ret (h, with_eventStacks tr (<[t := s]> (eventStacks tr)), false)
    else match h !! head s with
         | None => Undefined
         | Some oldHead =>
             Ret (h,
                  with_eventStacks tr
                    (<[t := mkTraceEventStack (previous oldHead) (eventHistory s)]>
                       (eventStacks tr)),
                  true)
         end.
Proof.
  intros s. unfold pop_current, currentStack.
  rewrite eventStacks_subscript_lookup.
  destruct (decide (t = t)) as [_|]; [|congruence].
  fold s. unfold pop.
  destruct (head s =? nullptr); simpl.
  - now rewrite with_eventStacks_subscript.
  - destruct (h !! head s); [|reflexivity].
    now rewrite with_eventStacks_subscript.
Qed.

(** ** Well-formed stacks are kept well-formed *)

Lemma event_wf_mono (h : heap) (hist hist' : list ptr) (i : nat) (p t : ptr)
    (ev : TraceEvent) :
  h !! t = None ->
  (forall x, x ∈ hist -> x ∈ hist') ->
  event_wf h hist i p -> event_wf (<[t := ev]> h) hist' i p.
Proof.
  intros Ht Hsub (e & l & Hp & He & Hl & Hlen & Hin).
  exists e, l. repeat apply conj; try assumption.
  - rewrite lookup_insert_ne; [assumption | congruence].
  - now apply chain_insert_fresh.
  - eapply Forall_impl; [exact Hin|]. intros pe. apply Hsub.
Qed.

Lemma stack_wf_new (h : heap) : stack_wf h TraceEventStack_new.
Proof.
  repeat split; simpl.
  - constructor.
  - intros i p Hi. discriminate.
  - now left.
Qed.

(** Entries of the history are objects of the store. *)
Lemma stack_wf_live (h : heap) (s : TraceEventStack) (p : ptr) :
  stack_wf h s -> p ∈ eventHistory s -> p ≠ nullptr /\ is_Some (h !! p).
Proof.
  intros (_ & Hev & _) Hp. apply list_elem_of_lookup in Hp as [i Hi].
  destruct (Hev i p Hi) as (e & l & Hnn & He & _). eauto.
Qed.

Lemma stack_wf_insert_fresh (h : heap) (s : TraceEventStack) (t : ptr)
    (ev : TraceEvent) :
  h !! t = None -> stack_wf h s -> stack_wf (<[t := ev]> h) s.
Proof.
  intros Ht (Hnd & Hev & Hhead). repeat split; try assumption.
  intros i p Hi. eapply event_wf_mono; eauto.
Qed.

Lemma stack_wf_emplace (h : heap) (s : TraceEventStack) (n : N) (k : EventKind) :
  stack_wf h s ->
  stack_wf (<[new_addr h := mkTraceEvent (head s) n k]> h)
           (mkTraceEventStack (new_addr h) (eventHistory s ++ [new_addr h])).
Proof.
  intros Hwf. pose proof Hwf as (Hnd & Hev & Hhead).
  destruct (new_addr_fresh h) as [Hnn Hfresh].
  assert (new_addr h ∉ eventHistory s) as Hnotin.
  { intros Hin. destruct (stack_wf_live h s _ Hwf Hin) as [_ [x Hx]]. congruence. }
  repeat split; simpl.
  - apply NoDup_app. split; [assumption|]. split; [|apply NoDup_singleton].
    intros x Hx Hx'. apply list_elem_of_singleton in Hx'. now subst.
  - intros i p Hi. apply lookup_app_Some in Hi as [Hi | [Hlen Hi]].
    + apply (event_wf_mono h (eventHistory s)); [assumption | | now apply Hev].
      intros x Hx. apply elem_of_app. now left.
    + apply list_lookup_singleton_Some in Hi as [Hi <-].
      exists (mkTraceEvent (head s) n k). simpl.
      destruct Hhead as [Hnull | Hin].
      * exists []. rewrite Hnull. repeat apply conj; try assumption.
        -- apply lookup_insert_eq.
        -- constructor.
        -- simpl; lia.
        -- constructor.
      * apply list_elem_of_lookup in Hin as Hj. destruct Hj as [j Hj].
        destruct (Hev j _ Hj) as (e & l & Hp & He & Hl & Hlen' & Hall).
        exists ((head s, e) :: l). repeat apply conj; try assumption.
        -- apply lookup_insert_eq.
        -- apply chain_insert_fresh; [assumption|]. now constructor.
        -- simpl. apply lookup_lt_Some in Hj. lia.
        -- constructor; simpl; [apply elem_of_app; now left|].
           eapply Forall_impl; [exact Hall|]. intros pe Hpe.
           apply elem_of_app. now left.
  - right. apply elem_of_app. right. now apply list_elem_of_singleton.
Qed.

Lemma stack_wf_pop (h : heap) (s : TraceEventStack) :
  stack_wf h s -> head s ≠ nullptr ->
  exists oldHead,
    h !! head s = Some oldHead
    /\ stack_wf h (mkTraceEventStack (previous oldHead) (eventHistory s)).
Proof.
  intros (Hnd & Hev & Hhead) Hne.
  destruct Hhead as [Hnull | Hin]; [congruence|].
  apply list_elem_of_lookup in Hin as [j Hj].
  destruct (Hev j _ Hj) as (e & l & Hp & He & Hl & Hlen & Hall).
  exists e. split; [assumption|]. repeat split; simpl; try assumption.
  destruct Hl as [|p ev l Hp' Hev' Hl]; [now left|].
  right. now inversion Hall.
Qed.

Lemma trace_wf_new (h : heap) : trace_wf h Trace_new.
Proof.
  split; simpl.
  - intros t s Hs. now rewrite lookup_empty in Hs.
  - intros t1 t2 s1 s2 p _ Hs. now rewrite lookup_empty in Hs.
Qed.

(** Every operation of a run succeeds on a well-formed trace and leaves it
    well-formed. *)
Lemma run_op_wf (h : heap) (n : N) (tr : Trace) (op : TraceOp) :
  trace_wf h tr ->
  exists h' n' tr',
    run_op (h, n, tr) op = Ret (h', n', tr') /\ trace_wf h' tr'.
Proof.
  intros [Hst Hdis].
  set (stack_of t := default TraceEventStack_new (eventStacks tr !! t)).
  assert (forall t, stack_wf h (stack_of t)) as Hwf.
  { intros t. unfold stack_of. destruct (eventStacks tr !! t) as [s|] eqn:Hs;
      simpl; [eauto | apply stack_wf_new]. }
  assert (forall t u s p, t ≠ u -> eventStacks tr !! u = Some s ->
            p ∈ eventHistory (stack_of t) -> p ∉ eventHistory s) as Hdis'.
  { intros t u s p Hne Hu. unfold stack_of.
    destruct (eventStacks tr !! t) as [s'|] eqn:Hs; simpl.
    - intros Hp. eapply Hdis; eauto.
    - intros Hp. now apply elem_of_nil in Hp. }
  destruct op as [t k | t]; simpl.
  - rewrite emplace_current_eq. fold (stack_of t).
    eexists _, _, _. split; [reflexivity|].
    destruct (new_addr_fresh h) as [Hnn Hfresh].
    assert (forall u s, eventStacks tr !! u = Some s ->
              new_addr h ∉ eventHistory s) as Hnew.
    { intros u s Hu Hin.
      destruct (stack_wf_live h s _ (Hst _ _ Hu) Hin) as [_ [x Hx]].
      congruence. }
    assert (forall u s p, t ≠ u -> eventStacks tr !! u = Some s ->
              p ∈ eventHistory (stack_of t) ++ [new_addr h] ->
              p ∉ eventHistory s) as Hnew'.
    { intros u s p Hne Hu Hp. apply elem_of_app in Hp as [Hp|Hp].
      - exact (Hdis' t u s p Hne Hu Hp).
      - apply list_elem_of_singleton in Hp as ->. exact (Hnew u s Hu). }
    split; simpl.
    + intros u s. rewrite lookup_insert.
      destruct (decide (t = u)) as [<-|Hne].
      * intros [= <-]. now apply stack_wf_emplace.
      * intros Hu. apply stack_wf_insert_fresh; eauto.
    + intros t1 t2 s1 s2 p Hne. rewrite !lookup_insert.
      destruct (decide (t = t1)) as [<-|H1], (decide (t = t2)) as [<-|H2];
        try congruence.
      * intros [= <-] H2' Hp. simpl in Hp. exact (Hnew' t2 s2 p H2 H2' Hp).
      * intros H1' [= <-] Hp Hp'. simpl in Hp'.
        exact (Hnew' t1 s1 p H1 H1' Hp' Hp).
      * intros H1' H2' Hp. exact (Hdis t1 t2 s1 s2 p Hne H1' H2' Hp).
  - rewrite pop_current_eq. fold (stack_of t).
    assert (forall hd,
              stack_wf h (mkTraceEventStack hd (eventHistory (stack_of t))) ->
              trace_wf h
                (with_eventStacks tr
                   (<[t := mkTraceEventStack hd (eventHistory (stack_of t))]>
                      (eventStacks tr)))) as Hput.
    { intros hd Hwf'. split; simpl.
      - intros u s. rewrite lookup_insert.
        destruct (decide (t = u)) as [<-|Hne]; [intros [= <-]; exact Hwf' | eauto].
      - intros t1 t2 s1 s2 p Hne. rewrite !lookup_insert.
        destruct (decide (t = t1)) as [<-|H1], (decide (t = t2)) as [<-|H2];
          try congruence.
        + intros [= <-] H2' Hp. simpl in Hp. exact (Hdis' t t2 s2 p H2 H2' Hp).
        + intros H1' [= <-] Hp Hp'. simpl in Hp'.
          exact (Hdis' t t1 s1 p H1 H1' Hp' Hp).
        + intros H1' H2' Hp. exact (Hdis t1 t2 s1 s2 p Hne H1' H2' Hp). }
    destruct (head (stack_of t) =? nullptr) eqn:Hhead.
    + eexists _, _, _. split; [reflexivity|].
      apply N.eqb_eq in Hhead.
      replace (stack_of t)
        with (mkTraceEventStack nullptr (eventHistory (stack_of t))) at 1
        by (rewrite <- Hhead; now destruct (stack_of t)).
      apply Hput. destruct (Hwf t) as (Hnd & Hev & _).
      repeat split; simpl; [assumption | assumption | now left].
    + apply N.eqb_neq in Hhead.
      destruct (stack_wf_pop h _ (Hwf t) Hhead) as (old & Hold & Hwf').
      rewrite Hold. eexists _, _, _. split; [reflexivity|].
      now apply Hput.
Qed.

Lemma run_ops_wf (ops : list TraceOp) :
  forall h n tr,
    trace_wf h tr ->
    exists h' n' tr',
      run_ops ops (h, n, tr) = Ret (h', n', tr') /\ trace_wf h' tr'.
Proof.
  induction ops as [|op ops IH]; intros h n tr Hwf; cbn [run_ops].
  - eauto.
  - destruct (run_op_wf h n tr op Hwf) as (h1 & n1 & tr1 & Hop & Hwf1).
    rewrite Hop. now apply IH.
Qed.

Lemma run_ops_initial_wf (ops : list TraceOp) (h : heap) (n : N) (tr : Trace) :
  run_ops ops initial_state = Ret (h, n, tr) -> trace_wf h tr.
Proof.
  intros Hrun.
  destruct (run_ops_wf ops ∅ 0 Trace_new (trace_wf_new ∅))
    as (h' & n' & tr' & Hrun' & Hwf).
  unfold initial_state in Hrun. rewrite Hrun in Hrun'.
  now injection Hrun' as <- <- <-.
Qed.

(** ** Walks and events recorded later *)

(** A walk that returned keeps its answer when an object is placed at an
    address that held none. *)
Lemma currentBB_loop_insert_fresh (h : heap) (t : ptr) (ev : TraceEvent)
    (fuel : nat) (p r : ptr) :
  h !! t = None ->
  currentBB_loop fuel h p = Ret r ->
  currentBB_loop fuel (<[t := ev]> h) p = Ret r.
Proof.
  intros Ht. revert p. induction fuel as [|fuel IH]; intros p; simpl;
    [discriminate|].
  destruct (p =? nullptr); [trivial|].
  destruct (h !! p) as [e|] eqn:Hp; [|discriminate].
  rewrite lookup_insert_ne by congruence. rewrite Hp.
  destruct (is_BasicBlockEntry e); [trivial|].
  destruct (is_FunctionCall e); [trivial|]. apply IH.
Qed.

Lemma getCaller_loop_insert_fresh (h : heap) (t : ptr) (ev : TraceEvent)
    (fuel : nat) (p r : ptr) :
  h !! t = None ->
  getCaller_loop fuel h p = Ret r ->
  getCaller_loop fuel (<[t := ev]> h) p = Ret r.
Proof.
  intros Ht. revert p. induction fuel as [|fuel IH]; intros p; simpl;
    [discriminate|].
  destruct (p =? nullptr); [trivial|].
  destruct (h !! p) as [e|] eqn:Hp; [|discriminate].
  rewrite lookup_insert_ne by congruence. rewrite Hp.
  destruct (is_BasicBlockEntry e); [trivial|]. apply IH.
Qed.

(** Where [currentBB]'s walk finds a block, [getCaller]'s walk from the same
    event finds the same block. *)
Lemma currentBB_loop_getCaller_loop (h : heap) (fuel : nat) (p r : ptr) :
  currentBB_loop fuel h p = Ret r -> r ≠ nullptr ->
  getCaller_loop fuel h p = Ret r.
Proof.
  revert p. induction fuel as [|fuel IH]; intros p; simpl; [discriminate|].
  destruct (p =? nullptr); [trivial|].
  destruct (h !! p) as [e|]; [|trivial].
  destruct (is_BasicBlockEntry e); [trivial|].
  destruct (is_FunctionCall e); [congruence|]. apply IH.
Qed.

Lemma lastEvent_default (t : thread_id) (tr : Trace) :
  lastEvent t tr = head (default TraceEventStack_new (eventStacks tr !! t)).
Proof.
  unfold lastEvent, currentStack_const, peek.
  now destruct (eventStacks tr !! t).
Qed.

Lemma lastEvent_with_eventStacks (t u : thread_id) (tr : Trace)
    (s : TraceEventStack) :
  lastEvent u (with_eventStacks tr (<[t := s]> (eventStacks tr)))
  = if decide (t = u) then head s else lastEvent u tr.
Proof.
  unfold lastEvent, currentStack_const, peek; simpl.
  rewrite lookup_insert. now destruct (decide (t = u)).
Qed.

(** X4.  Recording an event on a thread always succeeds: the event goes to
    an address that held no object, its [previous] is what [lastEvent()] was,
    [lastEvent()] becomes the new event and [secondToLastEvent()] the former
    last event; the last events of other threads, the other objects of the
    store and the last-usage maps stay as they were. *)
Theorem record_then_lastEvent (t : thread_id) (h : heap) (n : N) (tr : Trace)
    (k : EventKind) :
  exists h' tr' e,
    emplace_current t h n tr k = Ret (h', size_succ n, tr', e)
    /\ e ≠ nullptr
    /\ h !! e = None
    /\ previous <$> h' !! e = Some (lastEvent t tr)
    /\ kind <$> h' !! e = Some k
    /\ lastEvent t tr' = e
    /\ secondToLastEvent t h' tr' = Ret (lastEvent t tr)
    /\ (forall u, u ≠ t -> lastEvent u tr' = lastEvent u tr)
    /\ (forall p, p ≠ e -> h' !! p = h !! p)
    /\ lastUsages tr' = lastUsages tr
    /\ lastUsagesByBB tr' = lastUsagesByBB tr.
Proof.
  rewrite emplace_current_eq. eexists _, _, _. split; [reflexivity|].
  destruct (new_addr_fresh h) as [Hnn Hfresh].
  assert (lastEvent t
            (with_eventStacks tr
               (<[t := mkTraceEventStack (new_addr h)
                         (eventHistory (default TraceEventStack_new
                                          (eventStacks tr !! t))
                          ++ [new_addr h])]> (eventStacks tr)))
          = new_addr h) as Hlast.
  { rewrite lastEvent_with_eventStacks.
    destruct (decide (t = t)); [reflexivity | congruence]. }
  repeat apply conj; try assumption; try reflexivity.
  - rewrite lookup_insert_eq. simpl. now rewrite lastEvent_default.
  - now rewrite lookup_insert_eq.
  - unfold secondToLastEvent. rewrite Hlast.
    apply N.eqb_neq in Hnn. rewrite Hnn. simpl.
    rewrite lookup_insert_eq. simpl. now rewrite lastEvent_default.
  - intros u Hu. rewrite lastEvent_with_eventStacks.
    destruct (decide (t = u)); [congruence | reflexivity].
  - intros p Hp. now rewrite lookup_insert_ne.
Qed.

(** X5.  After a thread records a block entry, its [currentBB()] is that
    entry; after it records a call, nothing; after it records a return (or a
    plain event), what [currentBB()] was before, at the cost of one more
    iteration.  The [currentBB()] of the other threads does not change. *)
Theorem record_then_currentBB (t : thread_id) (h : heap) (n : N) (tr : Trace)
    (k : EventKind) (fuel : nat) :
  exists h' tr' e,
    emplace_current t h n tr k = Ret (h', size_succ n, tr', e)
    /\ match k with
       | BasicBlockEntry _ _ _ => currentBB t (S fuel) h' tr' = Ret e
       | FunctionCall _ => currentBB t (S fuel) h' tr' = Ret nullptr
       | FunctionReturn _ _ | PlainEvent =>
           forall r, currentBB t fuel h tr = Ret r ->
                     currentBB t (S fuel) h' tr' = Ret r
       end
    /\ (forall u r, u ≠ t -> currentBB u fuel h tr = Ret r ->
                    currentBB u fuel h' tr' = Ret r).
Proof.
  rewrite emplace_current_eq. eexists _, _, _. split; [reflexivity|].
  destruct (new_addr_fresh h) as [Hnn Hfresh].
  apply N.eqb_neq in Hnn as Hnn'.
  split.
  - unfold currentBB. rewrite lastEvent_with_eventStacks.
    destruct (decide (t = t)) as [_|]; [|congruence]. simpl.
    rewrite Hnn', lookup_insert_eq.
    unfold is_BasicBlockEntry, is_FunctionCall. simpl.
    destruct k; try reflexivity;
      intros r Hr; rewrite <- lastEvent_default;
      now apply currentBB_loop_insert_fresh.
  - intros u r Hu Hr. unfold currentBB in *.
    rewrite lastEvent_with_eventStacks.
    destruct (decide (t = u)); [congruence|].
    now apply currentBB_loop_insert_fresh.
Qed.

(** X6.  A call recorded while the thread is inside a block, that is while
    [currentBB()] is a block, has that block as its [getCaller()]. *)
Theorem call_inside_block_has_caller (t : thread_id) (h : heap) (n : N)
    (tr : Trace) (fname : ptr) (fuel : nat) (r : ptr) :
  currentBB t fuel h tr = Ret r ->
  r ≠ nullptr ->
  exists h' tr' e,
    emplace_current t h n tr (FunctionCall fname) = Ret (h', size_succ n, tr', e)
    /\ getCaller fuel h' e = Ret r.
Proof.
  intros Hr Hne. rewrite emplace_current_eq. eexists _, _, _.
  split; [reflexivity|].
  destruct (new_addr_fresh h) as [Hnn Hfresh].
  unfold getCaller. rewrite lookup_insert_eq. simpl.
  apply getCaller_loop_insert_fresh; [assumption|].
  rewrite <- lastEvent_default.
  now apply currentBB_loop_getCaller_loop.
Qed.

(** ** Reachable states *)

(** X1.  Whatever the threads record and pop, in whatever order, no call
    dereferences a pointer to no object, and in the state reached every
    history lists each of its events once, its entries are objects of the
    store at addresses that are not null, the head is unset or an entry of
    the history, the [previous] of an entry is unset or an entry of the same
    history, and no event is in the histories of two threads. *)
Theorem run_ops_never_undefined (ops : list TraceOp) :
  exists h n tr,
    run_ops ops initial_state = Ret (h, n, tr)
    /\ (forall t s,
          eventStacks tr !! t = Some s ->
          NoDup (eventHistory s)
          /\ (forall p, p ∈ eventHistory s -> p ≠ nullptr /\ is_Some (h !! p))
          /\ (head s = nullptr \/ head s ∈ eventHistory s)
          /\ (forall p ev, p ∈ eventHistory s -> h !! p = Some ev ->
                previous ev = nullptr \/ previous ev ∈ eventHistory s))
    /\ (forall t1 t2 s1 s2 p,
          t1 ≠ t2 ->
          eventStacks tr !! t1 = Some s1 -> eventStacks tr !! t2 = Some s2 ->
          p ∈ eventHistory s1 -> p ∉ eventHistory s2).
Proof.
  destruct (run_ops_wf ops ∅ 0 Trace_new (trace_wf_new ∅))
    as (h & n & tr & Hrun & Hst & Hdis).
  exists h, n, tr. split; [exact Hrun|]. split; [|exact Hdis].
  intros t s Hs. pose proof (Hst t s Hs) as Hwf.
  pose proof Hwf as (Hnd & Hev & Hhead).
  repeat apply conj; try assumption.
  - intros p Hp. eapply stack_wf_live; eassumption.
  - intros p ev Hp Hlook. apply list_elem_of_lookup in Hp as [i Hi].
    destruct (Hev i p Hi) as (e & l & _ & He & Hl & _ & Hall).
    assert (e = ev) as -> by congruence.
    destruct Hl as [|q e l Hq He' Hl]; [now left|].
    right. now inversion Hall.
Qed.

(** On a well-formed stack the walk of [currentBB] ends within as many steps
    as the history is long, at nothing or at a block entry of the history. *)
Lemma currentBB_loop_wf (h : heap) (s : TraceEventStack) (fuel : nat) :
  stack_wf h s ->
  (length (eventHistory s) < fuel)%nat ->
  exists r,
    currentBB_loop fuel h (head s) = Ret r
    /\ (r = nullptr
        \/ (r ∈ eventHistory s
            /\ exists ev, h !! r = Some ev /\ is_BasicBlockEntry ev = true)).
Proof.
  intros (Hnd & Hev & Hhead) Hfuel.
  assert (exists l, chain h (head s) l
                    /\ (length l <= length (eventHistory s))%nat
                    /\ Forall (fun pe => pe.1 ∈ eventHistory s) l)
    as (l & Hl & Hlen & Hall).
  { destruct Hhead as [-> | Hin].
    - exists []. repeat split; [constructor | simpl; lia | constructor].
    - apply list_elem_of_lookup in Hin as Hj. destruct Hj as [j Hj].
      destruct (Hev j _ Hj) as (e & l & Hp & He & Hl & Hlen & Hall).
      exists ((head s, e) :: l). repeat split.
      + now constructor.
      + simpl. apply lookup_lt_Some in Hj. lia.
      + now constructor. }
  destruct (currentBB_loop_chain h _ l Hl fuel) as (r & Hr & Hans); [lia|].
  exists r. split; [assumption|].
  destruct Hans as [(l1 & p & ev & l2 & -> & _ & Hbb & -> & _) | [H | [_ ->]]].
  - right. pose proof (chain_elem _ _ _ Hl) as Hlive.
    apply Forall_app in Hall as [_ Hall]. apply Forall_app in Hlive as [_ Hlive].
    inversion Hall; inversion Hlive; subst; simpl in *. split; [assumption|].
    exists ev. tauto.
  - left. now destruct H as (? & ? & ? & ? & _ & _ & _ & ->).
  - now left.
Qed.

(** X2.  In a state reached by recording and popping, [currentBB()] returns
    on every thread within one iteration more than the thread's history is
    long; what it returns is nothing or a [BasicBlockEntry] of the calling
    thread's own history that is an object of the store. *)
Theorem currentBB_returns_on_reachable (ops : list TraceOp) (h : heap) (n : N)
    (tr : Trace) (t : thread_id) (fuel : nat) :
  run_ops ops initial_state = Ret (h, n, tr) ->
  (length (eventHistory (default TraceEventStack_new (eventStacks tr !! t))) < fuel)%nat ->
  exists r,
    currentBB t fuel h tr = Ret r
    /\ (r = nullptr
        \/ (exists s ev,
              eventStacks tr !! t = Some s /\ r ∈ eventHistory s
              /\ h !! r = Some ev /\ is_BasicBlockEntry ev = true)).
Proof.
  intros Hrun Hfuel. apply run_ops_initial_wf in Hrun as [Hst _].
  unfold currentBB. rewrite lastEvent_default.
  destruct (eventStacks tr !! t) as [s|] eqn:Hs; simpl in *.
  - destruct (currentBB_loop_wf h s fuel (Hst _ _ Hs) Hfuel)
      as (r & Hr & [-> | (Hin & ev & Hev & Hbb)]).
    + exists nullptr. split; [assumption | now left].
    + exists r. split; [assumption|]. right. exists s, ev. auto.
  - destruct fuel; [lia|]. exists nullptr. split; [reflexivity | now left].
Qed.

(** X3.  In a state reached by recording and popping, [getCaller()] of any
    call in a thread's history (popped or not) returns within as many
    iterations as the history is long; what it returns is nothing or a
    [BasicBlockEntry] of that history, other than the call itself. *)
Theorem getCaller_returns_on_reachable (ops : list TraceOp) (h : heap) (n : N)
    (tr : Trace) (t : thread_id) (s : TraceEventStack) (this_ : ptr)
    (call : TraceEvent) (fuel : nat) :
  run_ops ops initial_state = Ret (h, n, tr) ->
  eventStacks tr !! t = Some s ->
  this_ ∈ eventHistory s ->
  h !! this_ = Some call ->
  is_FunctionCall call = true ->
  (length (eventHistory s) <= fuel)%nat ->
  exists r,
    getCaller fuel h this_ = Ret r
    /\ (r = nullptr
        \/ (r ∈ eventHistory s /\ r ≠ this_
            /\ exists ev, h !! r = Some ev /\ is_BasicBlockEntry ev = true)).
Proof.
  intros Hrun Hs Hin Hthis Hcall Hfuel.
  apply run_ops_initial_wf in Hrun as [Hst _].
  destruct (Hst _ _ Hs) as (Hnd & Hev & Hhead).
  apply list_elem_of_lookup in Hin as [i Hi].
  destruct (Hev i _ Hi) as (e & l & Hp & He & Hl & Hlen & Hall).
  assert (e = call) as -> by congruence.
  apply lookup_lt_Some in Hi.
  destruct (getCaller_loop_chain h _ l Hl fuel) as (r & Hr & Hans); [lia|].
  exists r. unfold getCaller. rewrite Hthis. split; [assumption|].
  destruct Hans as [(l1 & p & ev & l2 & -> & _ & Hbb & -> & _) | [_ ->]];
    [|now left].
  right. pose proof (chain_elem _ _ _ Hl) as Hlive.
  apply Forall_app in Hall as [_ Hall]. apply Forall_app in Hlive as [_ Hlive].
  inversion Hall; inversion Hlive; subst; simpl in *.
  split; [assumption|]. split.
  - intros ->.
    match goal with H : _ /\ h !! this_ = Some ev |- _ => destruct H as [_ H5] end.
    assert (ev = call) as -> by congruence.
    unfold is_BasicBlockEntry, is_FunctionCall in *.
    destruct (kind call); discriminate.
  - exists ev. tauto.
Qed.

Local Abbreviation stack_of tr t :=
  (default TraceEventStack_new (eventStacks tr !! t)).

(** ** [push] and [pop] together *)

(** X7.  [pop()] right after [push(e)] answers [true] and brings the head
    back to what it was before the push; the pushed event stays the last
    entry of [eventHistory]. *)
Theorem pop_undoes_push (h : heap) (s : TraceEventStack) (e : ptr)
    (ev : TraceEvent) :
  e ≠ nullptr ->
  h !! e = Some ev ->
  exists h1 s1,
    push h s e = Ret (h1, s1)
    /\ pop h1 s1
       = Ret (h1, mkTraceEventStack (head s) (eventHistory s ++ [e]), true)
    /\ peek (mkTraceEventStack (head s) (eventHistory s ++ [e])) = peek s
    /\ e ∈ eventHistory s ++ [e].
Proof.
  intros Hne Hev. unfold push. rewrite Hev. eexists _, _.
  split; [reflexivity|]. split; [|split; [reflexivity|]].
  - unfold pop; simpl. apply N.eqb_neq in Hne. rewrite Hne. simpl.
    now rewrite lookup_insert_eq.
  - apply elem_of_app. right. now apply list_elem_of_singleton.
Qed.

(** ** The destructor *)

Lemma delete_all_NoDup (l : list ptr) :
  forall h : heap,
    NoDup l ->
    (forall p, p ∈ l -> p ≠ nullptr /\ is_Some (h !! p)) ->
    exists h',
      delete_all h l = Ret h'
      /\ forall p, h' !! p = if decide (p ∈ l) then None else h !! p.
Proof.
  induction l as [|e l IH]; intros h Hnd Hlive; simpl.
  - exists h. split; [reflexivity|]. intros p.
    destruct (decide (p ∈ [])) as [Hin|]; [|reflexivity].
    now apply elem_of_nil in Hin.
  - apply NoDup_cons in Hnd as [Hnotin Hnd].
    destruct (Hlive e) as [Hne [x Hx]]; [now left|].
    apply N.eqb_neq in Hne. rewrite Hne, Hx.
    destruct (IH (delete e h) Hnd) as (h' & Hdel & Hh').
    + intros p Hp. destruct (Hlive p) as [Hpn Hp']; [now right|].
      split; [assumption|]. rewrite lookup_delete_ne; [assumption|].
      intros ->. contradiction.
    + exists h'. split; [assumption|]. intros p. rewrite Hh'.
      destruct (decide (p ∈ l)) as [Hin|Hnin].
      * rewrite decide_True; [reflexivity | now right].
      * destruct (decide (p = e)) as [->|Hpe].
        -- rewrite decide_True; [apply lookup_delete_eq | now left].
        -- rewrite decide_False; [now apply lookup_delete_ne|].
           intros Hin. apply elem_of_cons in Hin as [?|?]; contradiction.
Qed.

Lemma delete_all_twice (l : list ptr) (e : ptr) :
  e ≠ nullptr ->
  forall h : heap, delete_all h (l ++ [e; e]) = Undefined.
Proof.
  intros Hne. apply N.eqb_neq in Hne.
  induction l as [|a l IH]; intros h; simpl.
  - rewrite Hne. destruct (h !! e); [|reflexivity].
    now rewrite lookup_delete_eq.
  - destruct (a =? nullptr); [apply IH|].
    destruct (h !! a); [apply IH | reflexivity].
Qed.

(** X8.  In a state reached by recording and popping, destroying a thread's
    stack deletes every event of its history, popped ones included, and
    nothing else: the events of the other threads' histories are the objects
    they were. *)
Theorem dtor_on_reachable (ops : list TraceOp) (h : heap) (n : N) (tr : Trace)
    (t : thread_id) (s : TraceEventStack) :
  run_ops ops initial_state = Ret (h, n, tr) ->
  eventStacks tr !! t = Some s ->
  exists h',
    TraceEventStack_dtor h s = Ret h'
    /\ (forall p, p ∈ eventHistory s -> h' !! p = None)
    /\ (forall p, p ∉ eventHistory s -> h' !! p = h !! p)
    /\ (forall u s' p,
          u ≠ t -> eventStacks tr !! u = Some s' -> p ∈ eventHistory s' ->
          h' !! p = h !! p /\ is_Some (h' !! p)).
Proof.
  intros Hrun Hs. apply run_ops_initial_wf in Hrun as [Hst Hdis].
  pose proof (Hst _ _ Hs) as Hwf. pose proof Hwf as (Hnd & _ & _).
  destruct (delete_all_NoDup (eventHistory s) h Hnd) as (h' & Hdel & Hh').
  { intros p Hp. eapply stack_wf_live; eassumption. }
  exists h'. split; [exact Hdel|].
  assert (forall p, p ∉ eventHistory s -> h' !! p = h !! p) as Hout.
  { intros p Hp. rewrite Hh'. now rewrite decide_False. }
  repeat apply conj.
  - intros p Hp. rewrite Hh'. now rewrite decide_True.
  - exact Hout.
  - intros u s' p Hu Hs' Hp.
    assert (p ∉ eventHistory s) as Hnotin.
    { exact (Hdis u t s' s p Hu Hs' Hs Hp). }
    rewrite (Hout p Hnotin). split; [reflexivity|].
    eapply stack_wf_live; [exact (Hst _ _ Hs') | exact Hp].
Qed.

(** X9.  Pushing one event twice in a row makes the event its own
    [previous] and enters it twice in [eventHistory]: the destructor then
    deletes it twice, and unless the event is a block entry (or, for
    [currentBB], a call) the walks of [currentBB] and [getCaller] from it
    never end. *)
Theorem push_twice_breaks_stack (h : heap) (s : TraceEventStack) (e : ptr)
    (ev : TraceEvent) :
  e ≠ nullptr ->
  h !! e = Some ev ->
  exists h1 s1 h2 s2,
    push h s e = Ret (h1, s1)
    /\ push h1 s1 e = Ret (h2, s2)
    /\ h2 !! e = Some (mkTraceEvent e (eventIndex ev) (kind ev))
    /\ eventHistory s2 = eventHistory s ++ [e; e]
    /\ TraceEventStack_dtor h2 s2 = Undefined
    /\ (is_BasicBlockEntry ev = false -> is_FunctionCall ev = false ->
        forall t tr fuel,
          eventStacks tr !! t = Some s2 ->
          currentBB t fuel h2 tr = OutOfFuel)
    /\ (is_BasicBlockEntry ev = false ->
        forall fuel, getCaller fuel h2 e = OutOfFuel).
Proof.
  intros Hne Hev. unfold push. rewrite Hev. eexists _, _, _, _.
  split; [reflexivity|]. rewrite lookup_insert_eq. simpl.
  split; [reflexivity|]. rewrite insert_insert_eq.
  assert (forall fuel, is_BasicBlockEntry ev = false ->
            getCaller_loop fuel
              (<[e := mkTraceEvent e (eventIndex ev) (kind ev)]> h) e
            = OutOfFuel) as Hloop.
  { intros fuel Hbb. apply N.eqb_neq in Hne.
    induction fuel as [|fuel IH]; simpl; [reflexivity|].
    rewrite Hne, lookup_insert_eq.
    unfold is_BasicBlockEntry in *. simpl. now rewrite Hbb. }
  repeat apply conj.
  - apply lookup_insert_eq.
  - now rewrite <- app_assoc.
  - unfold TraceEventStack_dtor; simpl. rewrite <- app_assoc. simpl.
    now apply delete_all_twice.
  - intros Hbb Hcall t tr fuel Hs. unfold currentBB.
    rewrite lastEvent_default, Hs. simpl.
    apply N.eqb_neq in Hne.
    induction fuel as [|fuel IH]; simpl; [reflexivity|].
    rewrite Hne, lookup_insert_eq.
    unfold is_BasicBlockEntry, is_FunctionCall in *. simpl.
    now rewrite Hbb, Hcall.
  - intros Hbb fuel. unfold getCaller. rewrite lookup_insert_eq. simpl.
    now apply Hloop.
Qed.

(** ** What a run leaves in the store and in the histories *)

Lemma stack_of_with_eventStacks (tr : Trace) (t u : thread_id)
    (s : TraceEventStack) :
  stack_of (with_eventStacks tr (<[t := s]> (eventStacks tr))) u
  = if decide (t = u) then s else stack_of tr u.
Proof.
  simpl. rewrite lookup_insert. now destruct (decide (t = u)).
Qed.

(** One operation: what it does to the store, to the counter and to the
    histories. *)
Lemma run_op_effect (h : heap) (n : N) (tr : Trace) (op : TraceOp)
    (h' : heap) (n' : N) (tr' : Trace) :
  run_op (h, n, tr) op = Ret (h', n', tr') ->
  match op with
  | RecordEvent t k =>
      h' = <[new_addr h := mkTraceEvent (head (stack_of tr t)) n k]> h
      /\ n' = size_succ n
      /\ stack_of tr' t
         = mkTraceEventStack (new_addr h)
             (eventHistory (stack_of tr t) ++ [new_addr h])
      /\ eventStacks tr' !! t = Some (stack_of tr' t)
      /\ (forall u, u ≠ t -> eventStacks tr' !! u = eventStacks tr !! u)
  | PopEvent t =>
      h' = h /\ n' = n
      /\ eventHistory (stack_of tr' t) = eventHistory (stack_of tr t)
      /\ eventStacks tr' !! t = Some (stack_of tr' t)
      /\ (forall u, u ≠ t -> eventStacks tr' !! u = eventStacks tr !! u)
  end.
Proof.
  destruct op as [t k | t]; cbn [run_op].
  - rewrite emplace_current_eq. intros [= <- <- <-].
    repeat apply conj; try reflexivity.
    + rewrite stack_of_with_eventStacks. now rewrite decide_True.
    + simpl. now rewrite lookup_insert_eq.
    + intros u Hu. simpl. now rewrite lookup_insert_ne.
  - rewrite pop_current_eq.
    destruct (head (stack_of tr t) =? nullptr).
    + intros [= <- <- <-]. repeat apply conj; try reflexivity.
      * rewrite stack_of_with_eventStacks. now rewrite decide_True.
      * simpl. now rewrite lookup_insert_eq.
      * intros u Hu. simpl. now rewrite lookup_insert_ne.
    + destruct (h !! head (stack_of tr t)); [|discriminate].
      intros [= <- <- <-]. repeat apply conj; try reflexivity.
      * rewrite stack_of_with_eventStacks. now rewrite decide_True.
      * simpl. now rewrite lookup_insert_eq.
      * intros u Hu. simpl. now rewrite lookup_insert_ne.
Qed.

Lemma run_ops_sizes (ops : list TraceOp) :
  forall h n tr h' n' tr',
    run_ops ops (h, n, tr) = Ret (h', n', tr') ->
    size h' = (size h + count_records ops)%nat
    /\ forall t,
        length (eventHistory (stack_of tr' t))
        = (length (eventHistory (stack_of tr t)) + count_records_of t ops)%nat.
Proof.
  induction ops as [|op ops IH]; intros h n tr h' n' tr'; cbn [run_ops].
  - intros [= <- <- <-]. split; [simpl; lia | intros t; simpl; lia].
  - destruct (run_op (h, n, tr) op) as [[[h1 n1] tr1]| |] eqn:Hop;
      try discriminate.
    intros Hrun. destruct (IH _ _ _ _ _ _ Hrun) as [Hsize Hlen].
    apply run_op_effect in Hop.
    destruct op as [t k | t]; simpl.
    + destruct Hop as (-> & -> & Hst & _ & Hother). split.
      * rewrite Hsize, map_size_insert_None; [lia|].
        apply new_addr_fresh.
      * intros u. rewrite Hlen. destruct (decide (t = u)) as [<-|Hne].
        -- rewrite Hst. simpl. rewrite length_app. simpl. lia.
        -- rewrite (Hother u) by congruence. reflexivity.
    + destruct Hop as (-> & -> & Hst & _ & Hother). split; [lia|].
      intros u. rewrite Hlen. destruct (decide (t = u)) as [<-|Hne].
      * now rewrite Hst.
      * rewrite (Hother u) by congruence. reflexivity.
Qed.

Lemma history_of_stack_of (tr : Trace) (t : thread_id) (p : ptr) :
  p ∈ eventHistory (stack_of tr t) ->
  exists s, eventStacks tr !! t = Some s /\ p ∈ eventHistory s.
Proof.
  destruct (eventStacks tr !! t) as [s|]; simpl; [eauto|].
  intros Hp. now apply elem_of_nil in Hp.
Qed.

Lemma run_ops_owned (ops : list TraceOp) :
  forall h n tr h' n' tr',
    (forall p, is_Some (h !! p) ->
               exists t, p ∈ eventHistory (stack_of tr t)) ->
    run_ops ops (h, n, tr) = Ret (h', n', tr') ->
    forall p, is_Some (h' !! p) ->
              exists t, p ∈ eventHistory (stack_of tr' t).
Proof.
  induction ops as [|op ops IH]; intros h n tr h' n' tr' Hown; cbn [run_ops].
  - now intros [= <- <- <-].
  - destruct (run_op (h, n, tr) op) as [[[h1 n1] tr1]| |] eqn:Hop;
      try discriminate.
    apply IH. apply run_op_effect in Hop.
    assert (forall t u, u ≠ t ->
              eventStacks tr1 !! u = eventStacks tr !! u ->
              stack_of tr1 u = stack_of tr u) as Hsame.
    { intros t u _ Hu. now rewrite Hu. }
    destruct op as [t k | t].
    + destruct Hop as (-> & -> & Hst & _ & Hother). intros p Hp.
      destruct (decide (p = new_addr h)) as [->|Hne].
      * exists t. rewrite Hst. simpl. apply elem_of_app. right.
        now apply list_elem_of_singleton.
      * rewrite lookup_insert_ne in Hp by congruence.
        destruct (Hown p Hp) as [u Hu].
        exists u. destruct (decide (u = t)) as [->|Hut].
        -- rewrite Hst. simpl. apply elem_of_app. now left.
        -- now rewrite (Hother u Hut).
    + destruct Hop as (-> & -> & Hst & _ & Hother). intros p Hp.
      destruct (Hown p Hp) as [u Hu].
      exists u. destruct (decide (u = t)) as [->|Hut].
      * now rewrite Hst.
      * now rewrite (Hother u Hut).
Qed.

(** The objects of the store are the entries of the histories. *)
Lemma reachable_live_iff (ops : list TraceOp) (h : heap) (n : N) (tr : Trace)
    (p : ptr) :
  run_ops ops initial_state = Ret (h, n, tr) ->
  is_Some (h !! p) <->
  exists t s, eventStacks tr !! t = Some s /\ p ∈ eventHistory s.
Proof.
  intros Hrun. pose proof (run_ops_initial_wf _ _ _ _ Hrun) as [Hst _].
  unfold initial_state in Hrun. split.
  - intros Hp.
    assert (forall q, is_Some ((∅ : heap) !! q) ->
              exists t, q ∈ eventHistory (stack_of Trace_new t)) as Hown.
    { intros q [x Hx]. now rewrite lookup_empty in Hx. }
    destruct (run_ops_owned ops _ _ _ _ _ _ Hown Hrun p Hp) as [t Ht].
    exists t. now apply history_of_stack_of.
  - intros (t & s & Hs & Hp). eapply stack_wf_live; eauto.
Qed.

(** X10.  Popping frees nothing: after a run the store holds as many events
    as were recorded, the history of a thread is as long as the number of
    events that thread recorded, and the objects of the store are exactly the
    entries of the histories. *)
Theorem run_keeps_every_event (ops : list TraceOp) (h : heap) (n : N)
    (tr : Trace) :
  run_ops ops initial_state = Ret (h, n, tr) ->
  size h = count_records ops
  /\ (forall t,
        length (eventHistory (stack_of tr t)) = count_records_of t ops)
  /\ (forall p, is_Some (h !! p) <->
                exists t s, eventStacks tr !! t = Some s /\ p ∈ eventHistory s).
Proof.
  intros Hrun. pose proof Hrun as Hrun'. unfold initial_state in Hrun'.
  destruct (run_ops_sizes _ _ _ _ _ _ _ Hrun') as [Hsize Hlen].
  split; [now rewrite Hsize, map_size_empty|].
  split; [intros t; rewrite Hlen; simpl; now rewrite lookup_empty|].
  intros p. now apply (reachable_live_iff ops h n tr p).
Qed.

(** ** Event indices along a run *)

Lemma counter_inv_initial : counter_inv 0 ∅ 0 Trace_new.
Proof.
  repeat split.
  - intros p ev Hp. now rewrite lookup_empty in Hp.
  - intros p q evp evq Hp. now rewrite lookup_empty in Hp.
  - intros p ev Hp. now rewrite lookup_empty in Hp.
  - intros t s i j p q evp evq Hs. simpl in Hs. now rewrite lookup_empty in Hs.
Qed.

Lemma stack_of_lookup (tr : Trace) (t : thread_id) (i : nat) (p : ptr) :
  eventHistory (stack_of tr t) !! i = Some p ->
  exists s, eventStacks tr !! t = Some s /\ eventHistory s !! i = Some p.
Proof.
  destruct (eventStacks tr !! t) as [s|]; simpl; [eauto | discriminate].
Qed.

Lemma run_op_counter_inv (c : N) (h : heap) (n : N) (tr : Trace) (op : TraceOp)
    (h' : heap) (n' : N) (tr' : Trace) :
  trace_wf h tr ->
  counter_inv c h n tr ->
  c + N.of_nat (count_records [op]) <= SIZE_MOD ->
  run_op (h, n, tr) op = Ret (h', n', tr') ->
  counter_inv (c + N.of_nat (count_records [op])) h' n' tr'.
Proof.
  intros [Hst Hdis] (Hn & Hlt & Hinj & Hprev & Hsort) Hc Hop.
  apply run_op_effect in Hop.
  assert (forall t p, p ∈ eventHistory (stack_of tr t) ->
            p ≠ nullptr /\ is_Some (h !! p)) as Hlive.
  { intros t p Hp. apply history_of_stack_of in Hp as (s & Hs & Hp).
    eapply stack_wf_live; eauto. }
  destruct op as [t k | t]; simpl in Hc |- *.
  - destruct Hop as (-> & -> & Hstk & Hsome & Hother).
    destruct (new_addr_fresh h) as [Hnn Hfresh].
    set (e := new_addr h) in *.
    assert (n = c) as Hnc by (rewrite Hn; apply N.mod_small; lia).
    assert (forall p ev, p ≠ e -> (<[e := mkTraceEvent (head (stack_of tr t)) n k]> h) !! p = Some ev ->
              h !! p = Some ev) as Hold.
    { intros p ev Hp. now rewrite lookup_insert_ne. }
    assert (forall p ev, h !! p = Some ev -> p ≠ e) as Hne.
    { intros p ev Hp ->. congruence. }
    repeat apply conj.
    + unfold size_succ. rewrite Hn. now rewrite N.Div0.add_mod_idemp_l.
    + intros p ev. destruct (decide (p = e)) as [->|Hp].
      * rewrite lookup_insert_eq. intros [= <-]. simpl. lia.
      * intros Hev. apply Hold in Hev; [|assumption].
        specialize (Hlt _ _ Hev). lia.
    + intros p q evp evq.
      destruct (decide (p = e)) as [->|Hp], (decide (q = e)) as [->|Hq];
        try reflexivity.
      * rewrite lookup_insert_eq. intros [= <-] Hq' Heq. simpl in Heq.
        apply Hold in Hq'; [|assumption]. specialize (Hlt _ _ Hq'). lia.
      * rewrite lookup_insert_eq. intros Hp' [= <-] Heq. simpl in Heq.
        apply Hold in Hp'; [|assumption]. specialize (Hlt _ _ Hp'). lia.
      * intros Hp' Hq'. apply Hold in Hp'; [|assumption].
        apply Hold in Hq'; [|assumption]. eauto.
    + intros p ev. destruct (decide (p = e)) as [->|Hp].
      * rewrite lookup_insert_eq. intros [= <-]. simpl.
        assert (stack_wf h (stack_of tr t)) as (_ & _ & Hhead).
        { destruct (eventStacks tr !! t) as [s|] eqn:Hs; simpl;
            [eauto | apply stack_wf_new]. }
        destruct Hhead as [Hnull | Hin]; [now left|]. right.
        destruct (Hlive t _ Hin) as [_ [ev' Hev']].
        exists ev'. rewrite lookup_insert_ne by (eapply not_eq_sym, Hne; eauto).
        split; [assumption|]. specialize (Hlt _ _ Hev'). lia.
      * intros Hev. apply Hold in Hev; [|assumption].
        destruct (Hprev _ _ Hev) as [Hnull | (ev' & Hev' & Hidx)];
          [now left|]. right. exists ev'.
        rewrite lookup_insert_ne by (eapply not_eq_sym, Hne; eauto). auto.
    + intros u s i j p q evp evq Hs Hi Hj Hij Hp Hq.
      destruct (decide (u = t)) as [->|Hut].
      * rewrite Hsome, Hstk in Hs. injection Hs as <-. simpl in Hi, Hj.
        apply lookup_app_Some in Hi as [Hi | [Hleni Hi]];
          apply lookup_app_Some in Hj as [Hj | [Hlenj Hj]].
        -- destruct (Hlive t p) as [_ [x Hx]];
             [eapply list_elem_of_lookup_2; eauto|].
           destruct (Hlive t q) as [_ [y Hy]];
             [eapply list_elem_of_lookup_2; eauto|].
           apply Hold in Hp; [|eapply Hne; eauto].
           apply Hold in Hq; [|eapply Hne; eauto].
           apply stack_of_lookup in Hi as (s & Hs & Hi).
           rewrite Hs in Hj. simpl in Hj. eauto.
        -- apply list_lookup_singleton_Some in Hj as [_ <-].
           rewrite lookup_insert_eq in Hq. injection Hq as <-. simpl.
           destruct (Hlive t p) as [_ [x Hx]];
             [eapply list_elem_of_lookup_2; eauto|].
           apply Hold in Hp; [|eapply Hne; eauto].
           specialize (Hlt _ _ Hp). lia.
        -- apply lookup_lt_Some in Hj. lia.
        -- apply list_lookup_singleton_Some in Hi as [Hi _].
           apply list_lookup_singleton_Some in Hj as [Hj _]. lia.
      * rewrite (Hother u Hut) in Hs.
        pose proof (Hst _ _ Hs) as Hwf.
        destruct (stack_wf_live h s p Hwf) as [_ [x Hx]];
          [eapply list_elem_of_lookup_2; eauto|].
        destruct (stack_wf_live h s q Hwf) as [_ [y Hy]];
          [eapply list_elem_of_lookup_2; eauto|].
        apply Hold in Hp; [|eapply Hne; eauto].
        apply Hold in Hq; [|eapply Hne; eauto]. eauto.
  - destruct Hop as (-> & -> & Hstk & Hsome & Hother).
    rewrite N.add_0_r. repeat apply conj; try assumption.
    intros u s i j p q evp evq Hs Hi Hj Hij Hp Hq.
    destruct (decide (u = t)) as [->|Hut].
    + rewrite Hsome in Hs. injection Hs as <-. rewrite Hstk in Hi, Hj.
      apply stack_of_lookup in Hi as (s & Hs & Hi).
      rewrite Hs in Hj. simpl in Hj. eauto.
    + rewrite (Hother u Hut) in Hs. eauto.
Qed.

Lemma run_ops_counter_inv (ops : list TraceOp) :
  forall c h n tr h' n' tr',
    trace_wf h tr ->
    counter_inv c h n tr ->
    c + N.of_nat (count_records ops) <= SIZE_MOD ->
    run_ops ops (h, n, tr) = Ret (h', n', tr') ->
    counter_inv (c + N.of_nat (count_records ops)) h' n' tr'.
Proof.
  induction ops as [|op ops IH]; intros c h n tr h' n' tr' Hwf Hinv Hc;
    cbn [run_ops].
  - intros [= <- <- <-]. simpl. now rewrite N.add_0_r.
  - destruct (run_op (h, n, tr) op) as [[[h1 n1] tr1]| |] eqn:Hop;
      try discriminate.
    intros Hrun.
    assert (count_records (op :: ops)
            = (count_records [op] + count_records ops)%nat) as Hcount.
    { destruct op; reflexivity. }
    rewrite Hcount in Hc |- *. rewrite Nat2N.inj_add in Hc |- *.
    rewrite N.add_assoc in Hc |- *.
    destruct (run_op_wf h n tr op Hwf) as (h2 & n2 & tr2 & Hop' & Hwf1).
    rewrite Hop in Hop'. injection Hop' as <- <- <-.
    eapply IH; [exact Hwf1 | | exact Hc | exact Hrun].
    eapply run_op_counter_inv; [exact Hwf | exact Hinv | lia | exact Hop].
Qed.

(** X11.  With the constructor taking its index from [numTraceEvents] (its
    body is not part of the header) and a run that records at most 2^64
    events: the counter stands at the number of events recorded, every index
    is below it, no two events of the store share an index, the [previous]
    of an event has a smaller index than the event, and along each thread's
    history the indices increase. *)
Theorem eventIndex_order_on_reachable (ops : list TraceOp) (h : heap) (n : N)
    (tr : Trace) :
  run_ops ops initial_state = Ret (h, n, tr) ->
  N.of_nat (count_records ops) <= SIZE_MOD ->
  n = N.of_nat (count_records ops) mod SIZE_MOD
  /\ (forall p ev, h !! p = Some ev -> eventIndex ev < N.of_nat (count_records ops))
  /\ (forall p q evp evq,
        h !! p = Some evp -> h !! q = Some evq ->
        eventIndex evp = eventIndex evq -> p = q)
  /\ (forall p ev ev',
        h !! p = Some ev -> h !! previous ev = Some ev' ->
        eventIndex ev' < eventIndex ev)
  /\ (forall t s i j p q evp evq,
        eventStacks tr !! t = Some s ->
        eventHistory s !! i = Some p -> eventHistory s !! j = Some q ->
        (i < j)%nat ->
        h !! p = Some evp -> h !! q = Some evq ->
        eventIndex evp < eventIndex evq).
Proof.
  intros Hrun Hc.
  destruct (run_ops_counter_inv ops 0 ∅ 0 Trace_new h n tr
              (trace_wf_new ∅) counter_inv_initial)
    as (Hn & Hlt & Hinj & Hprev & Hsort); [lia | exact Hrun |].
  rewrite N.add_0_l in *.
  repeat apply conj; try assumption.
  intros p ev ev' Hp Hp'.
  destruct (Hprev p ev Hp) as [Hnull | (ev'' & Hev'' & Hidx)].
  - rewrite Hnull in Hp'.
    pose proof (run_ops_initial_wf _ _ _ _ Hrun) as [Hst _].
    destruct (proj1 (reachable_live_iff ops h n tr nullptr Hrun))
      as (t & s & Hs & Hin); [eauto|].
    destruct (stack_wf_live h s nullptr (Hst _ _ Hs) Hin) as [Hne _].
    congruence.
  - congruence.
Qed.

(** ** Runs of [setLastUsage] *)

Lemma lastUsages_setLastUsage_all (calls : list (dfsan_label * ptr))
    (label : dfsan_label) :
  forall tr,
    lastUsages (setLastUsage_all tr calls) !! label
    = match last_call calls label with
      | Some bb => Some bb
      | None => lastUsages tr !! label
      end.
Proof.
  induction calls as [|[c bb] calls IH]; intros tr; simpl; [reflexivity|].
  rewrite (IH (setLastUsage tr c bb)).
  destruct (last_call calls label); [reflexivity|].
  rewrite lastUsages_setLastUsage, lookup_insert.
  now destruct (decide (c = label)).
Qed.

(** X12.  After a run of [setLastUsage] calls on a new trace, [taints()]
    and [getLastUsage] give for a label the block passed by the most recent
    call for that label ([getLastUsage] gives the null pointer when there
    was none), and [taints(bb)] holds exactly the labels whose most recent
    call passed [bb]. *)
Theorem last_usage_is_most_recent (calls : list (dfsan_label * ptr))
    (label : dfsan_label) :
  let tr := setLastUsage_all Trace_new calls in
  taints tr !! label = last_call calls label
  /\ getLastUsage tr label = default nullptr (last_call calls label)
  /\ (forall bb, label ∈ taints_of tr bb <-> last_call calls label = Some bb)
  /\ (last_call calls label = None <-> label ∉ calls.*1).
Proof.
  intros tr.
  assert (lastUsages tr !! label = last_call calls label) as Hlu.
  { unfold tr. rewrite lastUsages_setLastUsage_all. simpl.
    rewrite lookup_empty. now destruct (last_call calls label). }
  split; [|split; [|split]].
  - exact Hlu.
  - unfold getLastUsage. rewrite Hlu. now destruct (last_call calls label).
  - intros bb. rewrite <- Hlu.
    apply (dual_map_inv_all calls _ dual_map_inv_new).
  - clear. induction calls as [|[c bb] calls IH]; simpl.
    + split; [intros _ Hin; now apply elem_of_nil in Hin | reflexivity].
    + rewrite not_elem_of_cons. destruct (last_call calls label) as [b|].
      * split; [discriminate|]. intros [_ Hn]. apply IH in Hn. discriminate.
      * destruct (decide (c = label)) as [->|Hne].
        -- split; [discriminate | intros [Hn _]; congruence].
        -- split; [|reflexivity]. intros _. split; [congruence|].
           now apply IH.
Qed.

(** X13.  [setLastUsage(c, bb)] changes nothing for a label other than [c]:
    its [getLastUsage], its entry in [taints()] and its membership in every
    block's set stay as they were, and so do the event stacks. *)
Theorem setLastUsage_other_labels (tr : Trace) (c : dfsan_label) (bb : ptr)
    (label : dfsan_label) :
  label ≠ c ->
  getLastUsage (setLastUsage tr c bb) label = getLastUsage tr label
  /\ taints (setLastUsage tr c bb) !! label = taints tr !! label
  /\ (forall b, label ∈ taints_of (setLastUsage tr c bb) b
                <-> label ∈ taints_of tr b)
  /\ eventStacks (setLastUsage tr c bb) = eventStacks tr.
Proof.
  intros Hne.
  assert (lastUsages (setLastUsage tr c bb) !! label = lastUsages tr !! label)
    as Hlu.
  { rewrite lastUsages_setLastUsage. rewrite lookup_insert_ne; congruence. }
  repeat apply conj.
  - unfold getLastUsage. now rewrite Hlu.
  - exact Hlu.
  - intros b. rewrite elem_of_taints_of_setLastUsage. tauto.
  - reflexivity.
Qed.

Lemma dom_lastUsagesByBB_subscript (m : gmap ptr (gset dfsan_label)) (key : ptr) :
  dom (lastUsagesByBB_subscript m key) = dom m ∪ {[key]}.
Proof.
  unfold lastUsagesByBB_subscript. destruct (m !! key) eqn:Hk.
  - apply set_eq. intros x. rewrite elem_of_union, elem_of_singleton.
    split; [tauto|]. intros [?| ->]; [assumption|].
    apply elem_of_dom. eauto.
  - rewrite dom_insert_L. apply set_eq. intros x.
    rewrite !elem_of_union, elem_of_singleton. tauto.
Qed.

(** [setLastUsage] adds the block to the keys of [lastUsagesByBB], and the
    block the label was recorded for before; it removes no key. *)
Lemma dom_lastUsagesByBB_setLastUsage (tr : Trace) (c : dfsan_label) (bb : ptr) :
  dom (lastUsagesByBB (setLastUsage tr c bb))
  = dom (lastUsagesByBB tr) ∪ {[bb]}
    ∪ match lastUsages tr !! c with Some old => {[old]} | None => ∅ end.
Proof.
  unfold setLastUsage; simpl.
  rewrite dom_insert_L, dom_lastUsagesByBB_subscript.
  destruct (lastUsages tr !! c) as [old|].
  - rewrite dom_insert_L, dom_lastUsagesByBB_subscript.
    apply set_eq. intros x.
    rewrite !elem_of_union, !elem_of_singleton. tauto.
  - apply set_eq. intros x.
    rewrite !elem_of_union, !elem_of_singleton, elem_of_empty. tauto.
Qed.

Lemma dom_setLastUsage_all (calls : list (dfsan_label * ptr)) :
  forall tr,
    dual_map_inv tr ->
    dom (lastUsagesByBB (setLastUsage_all tr calls))
    = dom (lastUsagesByBB tr) ∪ list_to_set calls.*2
    /\ dom (lastUsages (setLastUsage_all tr calls))
       = dom (lastUsages tr) ∪ list_to_set calls.*1.
Proof.
  induction calls as [|[c bb] calls IH]; intros tr Hinv; simpl.
  - split; apply set_eq; intros x; rewrite elem_of_union, elem_of_empty; tauto.
  - destruct (IH (setLastUsage tr c bb) (dual_map_inv_setLastUsage _ _ _ Hinv))
      as [-> ->].
    rewrite dom_lastUsagesByBB_setLastUsage, lastUsages_setLastUsage,
      dom_insert_L.
    split; apply set_eq; intros x;
      rewrite !elem_of_union, ?elem_of_singleton; [|tauto].
    destruct (lastUsages tr !! c) as [old|] eqn:Hold.
    + rewrite elem_of_singleton.
      assert (old ∈ dom (lastUsagesByBB tr)) as Hdom.
      { apply Hinv in Hold. unfold taints_of in Hold.
        apply elem_of_dom. destruct (lastUsagesByBB tr !! old); [eauto|].
        now apply elem_of_empty in Hold. }
      split; [intros [[[?|?]| ->]|?]; auto | tauto].
    + rewrite elem_of_empty. tauto.
Qed.

(** The block a label moves away from keeps its key, with the label taken
    out of its set. *)
Lemma lookup_old_block (tr : Trace) (c : dfsan_label) (bb old : ptr) :
  lastUsages tr !! c = Some old -> old ≠ bb ->
  lastUsagesByBB (setLastUsage tr c bb) !! old
  = Some (taints_of tr old ∖ {[c]}).
Proof.
  intros Hold Hne. rewrite taints_of_default. unfold setLastUsage; simpl.
  rewrite Hold. rewrite lookup_insert_ne by congruence.
  rewrite lookup_subscript_default.
  set (m := <[old := _]> _).
  assert (m !! old = Some (default ∅ (lastUsagesByBB tr !! old) ∖ {[c]})) as Hm
    by apply lookup_insert_eq.
  unfold lastUsagesByBB_subscript. destruct (m !! bb) eqn:Hbb; [exact Hm|].
  now rewrite lookup_insert_ne by congruence.
Qed.

(** X14.  The keys of [lastUsagesByBB] after a run of [setLastUsage] calls
    on a new trace are the blocks that were passed, whether or not a label
    is still recorded for them, and the keys of [lastUsages] are the labels
    that were passed; further calls remove no key.  A block that a label
    moves away from keeps its key, with the label taken out of its set. *)
Theorem last_usage_maps_only_grow (calls : list (dfsan_label * ptr)) :
  let tr := setLastUsage_all Trace_new calls in
  dom (lastUsagesByBB tr) = list_to_set calls.*2
  /\ dom (lastUsages tr) = list_to_set calls.*1
  /\ (forall more,
        dom (lastUsagesByBB tr)
        ⊆ dom (lastUsagesByBB (setLastUsage_all tr more)))
  /\ (forall label bbA bbB,
        bbA ≠ bbB ->
        let tr' := setLastUsage (setLastUsage tr label bbA) label bbB in
        lastUsagesByBB tr' !! bbA = Some (taints_of tr bbA ∖ {[label]})
        /\ (label ∉ taints_of tr' bbA)).
Proof.
  intros tr.
  pose proof (dual_map_inv_all calls _ dual_map_inv_new) as Hinv. fold tr in Hinv.
  destruct (dom_setLastUsage_all calls Trace_new dual_map_inv_new) as [Hd1 Hd2].
  fold tr in Hd1, Hd2.
  assert (dom (lastUsagesByBB Trace_new) = (∅ : gset ptr)) as E1
    by apply dom_empty_L.
  assert (dom (lastUsages Trace_new) = (∅ : gset dfsan_label)) as E2
    by apply dom_empty_L.
  rewrite E1 in Hd1. rewrite E2 in Hd2.
  split; [|split; [|split]].
  - rewrite Hd1. apply set_eq. intros x. rewrite elem_of_union, elem_of_empty. tauto.
  - rewrite Hd2. apply set_eq. intros x. rewrite elem_of_union, elem_of_empty. tauto.
  - intros more. destruct (dom_setLastUsage_all more tr Hinv) as [-> _].
    intros x Hx. apply elem_of_union. now left.
  - intros label bbA bbB Hne tr'.
    assert (lastUsagesByBB tr' !! bbA = Some (taints_of tr bbA ∖ {[label]}))
      as Hlook.
    { unfold tr'. rewrite lookup_old_block; [|apply lookup_insert_eq | exact Hne].
      f_equal. apply set_eq. intros x.
      rewrite !elem_of_difference, elem_of_taints_of_setLastUsage,
        elem_of_singleton.
      split; [|tauto]. intros [[[-> _]|[Hx _]] Hxl]; [congruence | tauto]. }
    split; [exact Hlook|].
    unfold taints_of. rewrite Hlook. rewrite elem_of_difference, elem_of_singleton.
    tauto.
Qed.

(** ** Equality and order of [BasicBlockTrace] *)

(** X15.  Traces that [operator==] holds equal are not ordered by
    [operator<]; [operator<] is asymmetric, and two traces that it does not
    order either way agree on the name (as a string), the index and the
    count.  The converse of the first fails: traces whose names are equal
    strings at different addresses are not ordered, yet [operator==] tells
    them apart.  [BasicBlockTraceComparator] answers 1 or 0, and never 1
    both ways. *)
Theorem BasicBlockTrace_eq_lt_consistent (chars_at : ptr -> string)
    (a b : BasicBlockTrace) :
  (BasicBlockTrace_eq a b = true ->
   BasicBlockTrace_lt chars_at a b = false
   /\ BasicBlockTrace_lt chars_at b a = false)
  /\ (BasicBlockTrace_lt chars_at a b = true ->
      BasicBlockTrace_lt chars_at b a = false
      /\ BasicBlockTrace_eq a b = false)
  /\ (BasicBlockTrace_lt chars_at a b = false ->
      BasicBlockTrace_lt chars_at b a = false ->
      c_str (chars_at (bbt_fname a)) = c_str (chars_at (bbt_fname b))
      /\ bbt_index a = bbt_index b /\ bbt_entryCount a = bbt_entryCount b)
  /\ (bbt_fname a ≠ bbt_fname b ->
      chars_at (bbt_fname a) = chars_at (bbt_fname b) ->
      bbt_index a = bbt_index b -> bbt_entryCount a = bbt_entryCount b ->
      BasicBlockTrace_eq a b = false
      /\ BasicBlockTrace_lt chars_at a b = false
      /\ BasicBlockTrace_lt chars_at b a = false)
  /\ (BasicBlockTraceComparator chars_at a b = 1
      \/ BasicBlockTraceComparator chars_at a b = 0)
  /\ (BasicBlockTraceComparator chars_at a b = 1 ->
      BasicBlockTraceComparator chars_at b a = 0).
Proof.
  assert (BasicBlockTrace_eq a b = true ->
          BasicBlockTrace_lt chars_at a b = false
          /\ BasicBlockTrace_lt chars_at b a = false) as Heq.
  { unfold BasicBlockTrace_eq. rewrite !andb_true_iff, !N.eqb_eq.
    intros [[Hf Hi] Hc]. apply BasicBlockTrace_incomparable.
    rewrite Hf, strcmp_refl. auto. }
  assert (BasicBlockTrace_lt chars_at a b = true ->
          BasicBlockTrace_lt chars_at b a = false) as Hasym.
  { intros Hab. destruct (BasicBlockTrace_lt chars_at b a) eqn:Hba; [|reflexivity].
    pose proof (BasicBlockTrace_lt_trans chars_at a b a Hab Hba) as Haa.
    now rewrite BasicBlockTrace_lt_irrefl in Haa. }
  split; [exact Heq|]. split; [|split; [|split; [|split]]].
  - intros Hab. split; [now apply Hasym|].
    destruct (BasicBlockTrace_eq a b) eqn:He; [|reflexivity].
    destruct (Heq eq_refl) as [Hab' _]. congruence.
  - intros Hab Hba.
    destruct (proj1 (BasicBlockTrace_incomparable chars_at a b) (conj Hab Hba))
      as (Hn & Hi & Hc).
    apply strcmp_zero_iff in Hn. auto.
  - intros Hf Hn Hi Hc. split.
    + unfold BasicBlockTrace_eq. apply N.eqb_neq in Hf. now rewrite Hf.
    + apply BasicBlockTrace_incomparable. rewrite Hn, strcmp_refl. auto.
  - unfold BasicBlockTraceComparator.
    destruct (BasicBlockTrace_lt chars_at a b); auto.
  - unfold BasicBlockTraceComparator.
    destruct (BasicBlockTrace_lt chars_at a b) eqn:Hab; [|discriminate].
    intros _. now rewrite (Hasym eq_refl).
Qed.

(** ** Asking for the stack of the calling thread *)

(** X16.  Asking for the stack a second time changes nothing more and
    returns the same slot.  The stack that the first call may have created
    is empty, so [lastEvent], [secondToLastEvent], [currentBB] and
    [getLastUsage] answer as before the call, for every thread; and
    [getStack] commutes with [setLastUsage]. *)
Theorem getStack_twice (t : thread_id) (tr : Trace) (x y : thread_id) :
  let tr1 := (getStack t tr x).1 in
  getStack t tr1 y = (tr1, t)
  /\ currentStack_const t tr1
     = Some (default TraceEventStack_new (eventStacks tr !! t))
  /\ (forall u, lastEvent u tr1 = lastEvent u tr)
  /\ (forall u h, secondToLastEvent u h tr1 = secondToLastEvent u h tr)
  /\ (forall u fuel h, currentBB u fuel h tr1 = currentBB u fuel h tr)
  /\ (forall label, getLastUsage tr1 label = getLastUsage tr label)
  /\ (forall label bb,
        (getStack t (setLastUsage tr label bb) x).1 = setLastUsage tr1 label bb).
Proof.
  intros tr1.
  assert (forall u, eventStacks tr1 !! u
                    = if decide (t = u)
                      then Some (default TraceEventStack_new (eventStacks tr !! t))
                      else eventStacks tr !! u) as Hlook.
  { intros u. apply eventStacks_subscript_lookup. }
  assert (forall u, lastEvent u tr1 = lastEvent u tr) as Hlast.
  { intros u. rewrite !lastEvent_default, Hlook.
    destruct (decide (t = u)) as [<-|]; [|reflexivity].
    now destruct (eventStacks tr !! t). }
  repeat apply conj.
  - unfold getStack. f_equal. unfold eventStacks_subscript at 1.
    fold tr1. rewrite Hlook. now rewrite decide_True.
  - unfold currentStack_const. rewrite Hlook. now rewrite decide_True.
  - exact Hlast.
  - intros u h. unfold secondToLastEvent. now rewrite Hlast.
  - intros u fuel h. unfold currentBB. now rewrite Hlast.
  - intros label. unfold tr1, getStack, eventStacks_subscript; simpl.
    now destruct (eventStacks tr !! t).
  - intros label bb. unfold tr1, getStack, eventStacks_subscript; simpl.
    now destruct (eventStacks tr !! t).
Qed.

(** X17.  In a state reached by recording and popping,
    [secondToLastEvent()] dereferences no pointer to no object; it returns
    nothing when the thread has no last event, and otherwise nothing or an
    event of the thread's history that is an object of the store and is not
    the last event. *)
Theorem secondToLastEvent_on_reachable (ops : list TraceOp) (h : heap) (n : N)
    (tr : Trace) (t : thread_id) :
  run_ops ops initial_state = Ret (h, n, tr) ->
  exists r,
    secondToLastEvent t h tr = Ret r
    /\ (r = nullptr
        \/ (r ∈ eventHistory (stack_of tr t) /\ is_Some (h !! r)
            /\ r ≠ lastEvent t tr))
    /\ (lastEvent t tr = nullptr -> r = nullptr).
Proof.
  intros Hrun.
  pose proof (run_ops_initial_wf _ _ _ _ Hrun) as [Hst _].
  unfold secondToLastEvent. rewrite lastEvent_default.
  destruct (eventStacks tr !! t) as [s|] eqn:Hs; simpl;
    [|exists nullptr; auto].
  destruct (head s =? nullptr) eqn:Hhead; simpl.
  - exists nullptr. auto.
  - apply N.eqb_neq in Hhead.
    pose proof (Hst _ _ Hs) as Hwf. pose proof Hwf as (_ & Hev & Hh).
    destruct Hh as [?|Hin]; [congruence|].
    apply list_elem_of_lookup in Hin as [i Hi].
    destruct (Hev i _ Hi) as (e & l & _ & He & Hl & Hlen & Hall).
    rewrite He. exists (previous e). split; [reflexivity|].
    split; [|congruence].
    inversion Hl as [Hnull | p ev l' Hp Hev' Hl' Hpe Hle]; [now left|]. right.
    subst l. inversion Hall as [|? ? Hin' _]; subst. simpl in Hin'.
    split; [assumption|]. split; [eauto|].
    intros Heq. rewrite Heq in Hl.
    assert (chain h (head s) ((head s, e) :: (previous e, ev) :: l')) as Hl2.
    { constructor; [assumption | assumption |]. now rewrite Heq. }
    pose proof (chain_functional _ _ _ _ Hl Hl2) as Hlists.
    apply (f_equal length) in Hlists. simpl in Hlists. lia.
Qed.

(** ** The hash of a [BasicBlockTrace] *)

Lemma size_shl_1_bits (x : N) :
  N.testbit (size_shl x 1) 0 = false
  /\ size_shl x 1 < SIZE_MOD.
Proof.
  unfold size_shl. split.
  - unfold SIZE_MOD. rewrite N.mod_pow2_bits_low by reflexivity.
    now apply N.shiftl_spec_low.
  - apply N.mod_lt. discriminate.
Qed.

Lemma lxor_lt_pow2 (a b k : N) : a < 2 ^ k -> b < 2 ^ k -> N.lxor a b < 2 ^ k.
Proof.
  intros Ha Hb.
  destruct (N.eq_dec (N.lxor a b) 0) as [->|Hne].
  { apply N.neq_0_lt_0. apply N.pow_nonzero. discriminate. }
  apply N.log2_lt_pow2; [lia|].
  eapply N.le_lt_trans; [apply N.log2_lxor|].
  destruct (N.eq_dec a 0) as [->|Ha0], (N.eq_dec b 0) as [->|Hb0].
  - now rewrite N.lxor_0_l in Hne.
  - rewrite N.max_r by (simpl; lia). apply N.log2_lt_pow2; lia.
  - rewrite N.max_l by (simpl; lia). apply N.log2_lt_pow2; lia.
  - apply N.max_lub_lt; apply N.log2_lt_pow2; lia.
Qed.

(** X18.  The hash of a trace fits 64 bits and is even, both hashed members
    being shifted left by one.  When one function hashes both members, the
    trace with index and count exchanged has the same hash; and a trace
    whose two members hash alike has hash zero. *)
Theorem BasicBlockTraceHasher_weak (std_hash_uint64 std_hash_size_t : N -> N)
    (bb : BasicBlockTrace) :
  BasicBlockTraceHasher std_hash_uint64 std_hash_size_t bb < SIZE_MOD
  /\ N.even (BasicBlockTraceHasher std_hash_uint64 std_hash_size_t bb) = true
  /\ (forall fname',
        BasicBlockTraceHasher std_hash_uint64 std_hash_uint64
          (mkBasicBlockTrace fname' (bbt_entryCount bb) (bbt_index bb))
        = BasicBlockTraceHasher std_hash_uint64 std_hash_uint64 bb)
  /\ (std_hash_uint64 (bbt_index bb) = std_hash_size_t (bbt_entryCount bb) ->
      BasicBlockTraceHasher std_hash_uint64 std_hash_size_t bb = 0).
Proof.
  unfold BasicBlockTraceHasher.
  destruct (size_shl_1_bits (std_hash_uint64 (bbt_index bb))) as [Hb1 Hl1].
  destruct (size_shl_1_bits (std_hash_size_t (bbt_entryCount bb))) as [Hb2 Hl2].
  split; [|split; [|split]].
  - now apply lxor_lt_pow2.
  - rewrite <- N.negb_odd, <- N.bit0_odd.
    rewrite N.lxor_spec, Hb1, Hb2. reflexivity.
  - intros fname'. simpl. apply N.lxor_comm.
  - intros ->. apply N.lxor_nilpotent.
Qed.

(** ** The theorems on the example run *)

Lemma example_run_state :
  run_ops example_run initial_state
  = Ret (example_heap, example_counter, example_trace).
Proof. vm_compute. reflexivity. Qed.

Lemma currentBB_returns_on_reachable_witness :
  run_ops example_run initial_state
  = Ret (example_heap, example_counter, example_trace)
  /\ (length (eventHistory (stack_of example_trace 1%N)) < 5)%nat
  /\ exists r,
      currentBB 1 5 example_heap example_trace = Ret r
      /\ (r = nullptr
          \/ (exists s ev,
                eventStacks example_trace !! 1 = Some s /\ r ∈ eventHistory s
                /\ example_heap !! r = Some ev
                /\ is_BasicBlockEntry ev = true)).
Proof.
  assert (length (eventHistory (stack_of example_trace 1%N)) < 5)%nat as Hfuel
    by (vm_compute; lia).
  split; [exact example_run_state|]. split; [exact Hfuel|].
  exact (currentBB_returns_on_reachable example_run _ _ _ 1 5
           example_run_state Hfuel).
Defined.

Lemma getCaller_returns_on_reachable_witness :
  let s := mkTraceEventStack 4 [1; 2; 4; 5] in
  let call := mkTraceEvent 1 1 (FunctionCall 200) in
  run_ops example_run initial_state
  = Ret (example_heap, example_counter, example_trace)
  /\ eventStacks example_trace !! 1 = Some s
  /\ 2 ∈ eventHistory s
  /\ example_heap !! 2 = Some call
  /\ is_FunctionCall call = true
  /\ (length (eventHistory s) <= 4)%nat
  /\ exists r,
      getCaller 4 example_heap 2 = Ret r
      /\ (r = nullptr
          \/ (r ∈ eventHistory s /\ r ≠ 2
              /\ exists ev, example_heap !! r = Some ev
                            /\ is_BasicBlockEntry ev = true)).
Proof.
  intros s call.
  assert (eventStacks example_trace !! 1 = Some s) as Hs by reflexivity.
  assert (2 ∈ eventHistory s) as Hin
    by (apply list_elem_of_In; simpl; tauto).
  assert (example_heap !! 2 = Some call) as Hcall by reflexivity.
  assert (is_FunctionCall call = true) as Hk by reflexivity.
  assert (length (eventHistory s) <= 4)%nat as Hfuel by (simpl; lia).
  repeat (split; [assumption || exact example_run_state|]).
  exact (getCaller_returns_on_reachable example_run _ _ _ 1 s 2 call 4
           example_run_state Hs Hin Hcall Hk Hfuel).
Defined.

Lemma call_inside_block_has_caller_witness :
  currentBB 1 5 example_heap example_trace = Ret 4
  /\ 4 ≠ nullptr
  /\ exists h' tr' e,
      emplace_current 1 example_heap example_counter example_trace
        (FunctionCall 300)
      = Ret (h', size_succ example_counter, tr', e)
      /\ getCaller 5 h' e = Ret 4.
Proof.
  assert (currentBB 1 5 example_heap example_trace = Ret 4) as Hr
    by reflexivity.
  assert (4 ≠ nullptr) as Hne by discriminate.
  split; [exact Hr|]. split; [exact Hne|].
  exact (call_inside_block_has_caller 1 example_heap example_counter
           example_trace 300 5 4 Hr Hne).
Defined.

Lemma pop_undoes_push_witness :
  let ev := mkTraceEvent nullptr 0 (FunctionCall 200) in
  let h : heap := {[6 := ev]} in
  let s := mkTraceEventStack 4 [1; 2; 4; 5] in
  6 ≠ nullptr
  /\ h !! 6 = Some ev
  /\ exists h1 s1,
      push h s 6 = Ret (h1, s1)
      /\ pop h1 s1
         = Ret (h1, mkTraceEventStack (head s) (eventHistory s ++ [6]), true)
      /\ peek (mkTraceEventStack (head s) (eventHistory s ++ [6])) = peek s
      /\ 6 ∈ eventHistory s ++ [6].
Proof.
  intros ev h s.
  assert (6 ≠ nullptr) as Hne by discriminate.
  assert (h !! 6 = Some ev) as Hev by reflexivity.
  split; [exact Hne|]. split; [exact Hev|].
  exact (pop_undoes_push h s 6 ev Hne Hev).
Defined.

Lemma dtor_on_reachable_witness :
  let s := mkTraceEventStack 4 [1; 2; 4; 5] in
  run_ops example_run initial_state
  = Ret (example_heap, example_counter, example_trace)
  /\ eventStacks example_trace !! 1 = Some s
  /\ exists h',
      TraceEventStack_dtor example_heap s = Ret h'
      /\ (forall p, p ∈ eventHistory s -> h' !! p = None)
      /\ (forall p, p ∉ eventHistory s -> h' !! p = example_heap !! p)
      /\ (forall u s' p,
            u ≠ 1 -> eventStacks example_trace !! u = Some s' ->
            p ∈ eventHistory s' ->
            h' !! p = example_heap !! p /\ is_Some (h' !! p)).
Proof.
  intros s.
  assert (eventStacks example_trace !! 1 = Some s) as Hs by reflexivity.
  split; [exact example_run_state|]. split; [exact Hs|].
  exact (dtor_on_reachable example_run _ _ _ 1 s example_run_state Hs).
Defined.

Lemma push_twice_breaks_stack_witness :
  let ev := mkTraceEvent nullptr 0 (FunctionReturn 200 1) in
  let h : heap := {[6 := ev]} in
  let s := TraceEventStack_new in
  6 ≠ nullptr
  /\ h !! 6 = Some ev
  /\ exists h1 s1 h2 s2,
      push h s 6 = Ret (h1, s1)
      /\ push h1 s1 6 = Ret (h2, s2)
      /\ h2 !! 6 = Some (mkTraceEvent 6 (eventIndex ev) (kind ev))
      /\ eventHistory s2 = eventHistory s ++ [6; 6]
      /\ TraceEventStack_dtor h2 s2 = Undefined
      /\ (is_BasicBlockEntry ev = false -> is_FunctionCall ev = false ->
          forall t tr fuel,
            eventStacks tr !! t = Some s2 ->
            currentBB t fuel h2 tr = OutOfFuel)
      /\ (is_BasicBlockEntry ev = false ->
          forall fuel, getCaller fuel h2 6 = OutOfFuel).
Proof.
  intros ev h s.
  assert (6 ≠ nullptr) as Hne by discriminate.
  assert (h !! 6 = Some ev) as Hev by reflexivity.
  split; [exact Hne|]. split; [exact Hev|].
  exact (push_twice_breaks_stack h s 6 ev Hne Hev).
Defined.

Lemma run_keeps_every_event_witness :
  run_ops example_run initial_state
  = Ret (example_heap, example_counter, example_trace)
  /\ size example_heap = count_records example_run
  /\ (forall t,
        length (eventHistory (stack_of example_trace t))
        = count_records_of t example_run)
  /\ (forall p, is_Some (example_heap !! p) <->
                exists t s, eventStacks example_trace !! t = Some s
                            /\ p ∈ eventHistory s).
Proof.
  split; [exact example_run_state|].
  exact (run_keeps_every_event example_run _ _ _ example_run_state).
Defined.

Lemma eventIndex_order_on_reachable_witness :
  run_ops example_run initial_state
  = Ret (example_heap, example_counter, example_trace)
  /\ N.of_nat (count_records example_run) <= SIZE_MOD
  /\ example_counter = N.of_nat (count_records example_run) mod SIZE_MOD
  /\ (forall p q evp evq,
        example_heap !! p = Some evp -> example_heap !! q = Some evq ->
        eventIndex evp = eventIndex evq -> p = q).
Proof.
  assert (N.of_nat (count_records example_run) <= SIZE_MOD) as Hc
    by (vm_compute; discriminate).
  split; [exact example_run_state|]. split; [exact Hc|].
  destruct (eventIndex_order_on_reachable example_run _ _ _
              example_run_state Hc) as (Hn & _ & Hinj & _).
  split; [exact Hn | exact Hinj].
Defined.

Lemma setLastUsage_other_labels_witness :
  let tr := setLastUsage_all Trace_new [(5, 10); (6, 10)] in
  6 ≠ 5
  /\ getLastUsage (setLastUsage tr 5 20) 6 = getLastUsage tr 6
  /\ taints (setLastUsage tr 5 20) !! 6 = taints tr !! 6
  /\ (forall b, 6 ∈ taints_of (setLastUsage tr 5 20) b <-> 6 ∈ taints_of tr b)
  /\ eventStacks (setLastUsage tr 5 20) = eventStacks tr.
Proof.
  intros tr.
  assert (6 ≠ 5) as Hne by discriminate.
  split; [exact Hne|].
  exact (setLastUsage_other_labels tr 5 20 6 Hne).
Defined.

Lemma secondToLastEvent_on_reachable_witness :
  run_ops example_run initial_state
  = Ret (example_heap, example_counter, example_trace)
  /\ exists r,
      secondToLastEvent 1 example_heap example_trace = Ret r
      /\ (r = nullptr
          \/ (r ∈ eventHistory (stack_of example_trace 1)
              /\ is_Some (example_heap !! r)
              /\ r ≠ lastEvent 1 example_trace))
      /\ (lastEvent 1 example_trace = nullptr -> r = nullptr).
Proof.
  split; [exact example_run_state|].
  exact (secondToLastEvent_on_reachable example_run _ _ _ 1 example_run_state).
Defined.
